(** * Engbot: the vocabulary expansion script, embedded and verified

    A shallow embedding of [Engbot.py]: the two Cambridge lookups
    ([scrape_cambridge_info], [scrape_cambridge_thesaurus]), the quiz
    builder ([create_quiz_item]) and the per-topic breadth-first loop of
    the script body.

    Python objects that the script mutates in place (the [queue] list, the
    [options] list of the quiz builder, the seed lists stored in
    [candidate_words]) live in an explicit store of list objects, so that
    aliasing between them is visible.  The module globals ([used_words] and
    the three output lists) are fields of one [state] record which is
    threaded through every call.

    Two primitives of Python that the lookups call, [str.lower] and
    [str.strip], are not defined by the script.  The embedding takes them
    as the functions [lower] and [strip] of section [Engbot], and every
    theorem of that section holds whatever these two functions are.  Runs
    on concrete pages come after the section; their pages are ASCII texts,
    for which the two primitives are computed by [AsciiStr]. *)

From Stdlib Require Import ZArith Ascii String Wellfounded Relation_Operators.
From Equations Require Import Equations.
From stdpp Require Import base tactics option list gmap sets strings.

Set Default Proof Using "Type".
Local Open Scope Z_scope.

(** ** Python string primitives *)

Module PyStr.

(** [sep.join(l)] *)
Fixpoint join (sep : string) (l : list string) : string :=
  match l with
  | [] => ""
  | [x] => x
  | x :: l' => x +:+ sep +:+ join sep l'
  end.

End PyStr.

(** [str.lower] and [str.strip] on strings of the ASCII range, where they
    are given by the two short tables below.  The embedding of the script
    does not use them: it takes the two primitives as given (section
    [Engbot]).  They serve to run the embedded script on pages whose texts
    are ASCII. *)
Module AsciiStr.

(** [str.lower] on one character: the letters [A]..[Z] are shifted by 32,
    every other code point of the ASCII range is kept. *)
Definition lower_ascii (a : ascii) : ascii :=
  let n := N_of_ascii a in
  if ((65 <=? n) && (n <=? 90))%N then ascii_of_N (n + 32) else a.

Fixpoint lower (s : string) : string :=
  match s with
  | EmptyString => EmptyString
  | String a s' => String (lower_ascii a) (lower s')
  end.

(** [str.isspace] on one character of the ASCII range: tab, line feed,
    vertical tab, form feed, carriage return, the four separators
    [0x1c]..[0x1f], and the blank. *)
Definition is_space (a : ascii) : bool :=
  let n := N_of_ascii a in
  (((9 <=? n) && (n <=? 13)) || ((28 <=? n) && (n <=? 32)))%N.

Fixpoint lstrip (s : string) : string :=
  match s with
  | EmptyString => EmptyString
  | String a s' => if is_space a then lstrip s' else s
  end.

Fixpoint rstrip (s : string) : string :=
  match s with
  | EmptyString => EmptyString
  | String a s' =>
      match rstrip s' with
      | EmptyString => if is_space a then EmptyString else String a EmptyString
      | r => String a r
      end
  end.

(** [str.strip()] with no argument. *)
Definition strip (s : string) : string := rstrip (lstrip s).

End AsciiStr.


(** ** The network and the parsed pages *)

(** An [<a>] element as the lookups read it: its [title] attribute when
    [has_attr("title")] holds, and the stripped text of its first [<span>]
    child when [find("span")] finds one. *)
Record anchor := Anchor {
  a_title : option string;
  a_span : option string
}.

(** What BeautifulSoup's queries return on a response body.  Parsing HTML
    itself is outside the script; a page is represented by the answers to
    the four queries the script makes:
    - [daccord_lb]: [soup.find("div", class_="daccord_lb")], and for a found
      container the result of [li.find("a")] for each of its [<li>];
    - [def_elements]: [get_text(separator=" ", strip=True)] of each
      [div.def.ddef_d.db];
    - [syn_container], [ant_container]: the [div.tlcs] sibling of the
      "Synonyms" / "Antonyms" header, and for a found container the result
      of [item.find("a")] for each of its [div.item]. *)
Record soup := Soup {
  daccord_lb : option (list (option anchor));
  def_elements : list string;
  syn_container : option (list (option anchor));
  ant_container : option (list (option anchor))
}.

(** The outcome of [requests.get]. *)
Inductive http_result :=
| RequestException
| Response (status_code : Z) (text : soup).

(** The world outside the script: the answer to the [n]-th request of the
    run, given the URL that is requested. *)
Definition network := nat → string → http_result.

Definition info_url (word : string) : string :=
  "https://dictionary.cambridge.org/dictionary/english/" +:+ word +:+ "?q=" +:+ word.

Definition thesaurus_url (word : string) : string :=
  "https://dictionary.cambridge.org/thesaurus/" +:+ word.

(** ** Records of the three output collections *)

Record quiz_item := QuizItem {
  Question_Text : string;
  Question_Type : string;
  Option_1 : string;
  Option_2 : string;
  Option_3 : string;
  Option_4 : string;
  Option_5 : string;
  Correct_Answer : string;
  Time_in_seconds : string;
  Image_Link : string;
  Answer_explanation : string
}.

Record thesaurus_item := ThesaurusItem {
  th_Word : string;
  th_Topic : string;
  th_Synonyms : string;
  th_Antonyms : string
}.

Record definitions_item := DefinitionsItem {
  df_Word : string;
  df_Topic : string;
  df_Definition : string
}.

(** ** The store of list objects and the script's globals *)

Definition loc := positive.

(** [heap] maps the identity of a Python list object to its contents. *)
Record state := State {
  heap : gmap loc (list string);
  used_words : gset string;
  quiz_items : list quiz_item;
  thesaurus_items : list thesaurus_item;
  definitions_items : list definitions_item;
  requests : nat;
  processing_log : list (string * string)
}.

Definition set_heap (h : gmap loc (list string)) (s : state) : state :=
  State h (used_words s) (quiz_items s) (thesaurus_items s)
        (definitions_items s) (requests s) (processing_log s).

Definition set_used_words (u : gset string) (s : state) : state :=
  State (heap s) u (quiz_items s) (thesaurus_items s)
        (definitions_items s) (requests s) (processing_log s).

Definition set_quiz_items (q : list quiz_item) (s : state) : state :=
  State (heap s) (used_words s) q (thesaurus_items s)
        (definitions_items s) (requests s) (processing_log s).

Definition set_thesaurus_items (t : list thesaurus_item) (s : state) : state :=
  State (heap s) (used_words s) (quiz_items s) t
        (definitions_items s) (requests s) (processing_log s).

Definition set_definitions_items (d : list definitions_item) (s : state) : state :=
  State (heap s) (used_words s) (quiz_items s) (thesaurus_items s)
        d (requests s) (processing_log s).

Definition set_requests (n : nat) (s : state) : state :=
  State (heap s) (used_words s) (quiz_items s) (thesaurus_items s)
        (definitions_items s) n (processing_log s).

Definition set_processing_log (l : list (string * string)) (s : state) : state :=
  State (heap s) (used_words s) (quiz_items s) (thesaurus_items s)
        (definitions_items s) (requests s) l.

(** Contents of the list object [l]. *)
Definition deref (s : state) (l : loc) : list string := heap s !!! l.

(** A new list object holding [v]. *)
Definition alloc (v : list string) (s : state) : loc * state :=
  let l := fresh (dom (heap s)) in
  (l, set_heap (<[l := v]> (heap s)) s).

(** In-place update of the list object [l]. *)
Definition store (l : loc) (v : list string) (s : state) : state :=
  set_heap (<[l := v]> (heap s)) s.

(** [requests.get(url, ...)]: the next answer of the network. *)
Definition requests_get (net : network) (url : string) (s : state)
  : http_result * state :=
  (net (requests s) url, set_requests (S (requests s)) s).

(** The local variables of the script body that survive one round of the
    [while] loop, next to the globals. *)
Record loop_state := LoopState {
  queue : loc;
  topic_used_words : Z;
  globals : state
}.

(** Unfolding of the store operations and of the field updates. *)
Ltac simpl_state :=
  unfold deref, store, set_heap, set_used_words, set_quiz_items,
    set_thesaurus_items, set_definitions_items, set_requests,
    set_processing_log in *;
  cbn [heap used_words quiz_items thesaurus_items definitions_items requests
       processing_log queue topic_used_words globals fst snd] in *.

(** ** The script, for given [str.lower] and [str.strip] *)

(** [str.lower()] and [str.strip()] are primitives of the language: what
    they return is fixed by the Unicode tables of the interpreter, not by
    the script.  The embedding takes them as the two functions [lower] and
    [strip]; every definition of this section is the script's code for
    whatever the two functions are.  A [string] stands for a Python [str]
    through its UTF-8 bytes, so that equality, emptiness and concatenation
    of strings are those of the script. *)
Section Engbot.

Variable lower : string → string.
Variable strip : string → string.

(** ** The two lookups *)

Section Lookups.

Variable net : network.

(** The [for li in li_elements] loop of [scrape_cambridge_info]; [related]
    is the list built so far. *)
Fixpoint related_loop (used : gset string) (word : string)
    (li_elements : list (option anchor)) (related : list string)
  : list string :=
  match li_elements with
  | [] => related
  | li :: rest =>
      match li with
      | Some {| a_title := Some t |} =>
          let candidate_word := lower (strip t) in
          if bool_decide ((candidate_word ≠ "")
                          ∧ (candidate_word ∉ used)
                          ∧ (candidate_word ≠ lower word))
          then related_loop used word rest (related ++ [candidate_word])
          else related_loop used word rest related
      | _ => related_loop used word rest related
      end
  end.

(** The [for def_elem in def_elements] loop. *)
Fixpoint definitions_loop (def_elems : list string) (definitions : list string)
  : list string :=
  match def_elems with
  | [] => definitions
  | text :: rest =>
      if bool_decide (text ≠ "")
      then definitions_loop rest (definitions ++ [text])
      else definitions_loop rest definitions
  end.

Definition scrape_cambridge_info (word : string) (s : state)
  : (list string * list string) * state :=
  let related := [] in
  let definitions := [] in
  let url := info_url word in
  let '(r, s) := requests_get net url s in
  match r with
  | RequestException => ((related, definitions), s)
  | Response status_code page =>
      if bool_decide (status_code ≠ 200) then ((related, definitions), s)
      else
        let related :=
          match daccord_lb page with
          | Some li_elements =>
              related_loop (used_words s) word li_elements related
          | None => related
          end in
        let definitions := definitions_loop (def_elements page) definitions in
        ((related, definitions), s)
  end.

(** The [for item in items] loop shared by the synonym and the antonym
    half of [scrape_cambridge_thesaurus]; [acc] is [synonyms], resp.
    [antonyms], as built so far. *)
Fixpoint items_loop (items : list (option anchor)) (acc : list string)
  : list string :=
  match items with
  | [] => acc
  | item :: rest =>
      match item with
      | Some {| a_span := Some t |} =>
          let candidate_word := lower t in
          if bool_decide ((candidate_word ≠ "") ∧ (candidate_word ∉ acc))
          then items_loop rest (acc ++ [candidate_word])
          else items_loop rest acc
      | _ => items_loop rest acc
      end
  end.

Definition scrape_cambridge_thesaurus (word : string) (s : state)
  : (list string * list string) * state :=
  let synonyms := [] in
  let antonyms := [] in
  let url := thesaurus_url word in
  let '(r, s) := requests_get net url s in
  match r with
  | RequestException => ((synonyms, antonyms), s)
  | Response status_code page =>
      if bool_decide (status_code ≠ 200) then ((synonyms, antonyms), s)
      else
        let synonyms :=
          match syn_container page with
          | Some items => items_loop items synonyms
          | None => synonyms
          end in
        let antonyms :=
          match ant_container page with
          | Some items => items_loop items antonyms
          | None => antonyms
          end in
        ((synonyms, antonyms), s)
  end.

End Lookups.

(** ** The quiz builder *)

(** [while len(options) < 5: options.append("")], on the list object
    [options].  At most five rounds can run, which is the fuel given by
    [create_quiz_item]. *)
Fixpoint pad_options (fuel : nat) (options : loc) (s : state) : state :=
  match fuel with
  | O => s
  | S fuel' =>
      if bool_decide (length (deref s options) < 5)%nat
      then pad_options fuel' options (store options (deref s options ++ [""]) s)
      else s
  end.

Definition question_text (candidate_word : string) : string :=
  "Which of the following is a synonym for '" +:+ candidate_word +:+ "'?".

Definition answer_explanation (correct candidate_word topic : string) : string :=
  "The word '" +:+ correct +:+ "' is a synonym for '" +:+ candidate_word
    +:+ "' (Topic: " +:+ topic +:+ ").".

(** [related_synonyms] is the list object passed by the caller. *)
Definition create_quiz_item (topic candidate_word : string)
    (related_synonyms : loc) (s : state) : option quiz_item * state :=
  match deref s related_synonyms with
  | [] => (None, s)
  | correct :: _ =>
      let '(options, s) := alloc (take 5 (deref s related_synonyms)) s in
      let s := pad_options 5 options s in
      let o := deref s options in
      (Some {| Question_Text := question_text candidate_word;
               Question_Type := "Multiple Choice";
               Option_1 := o !!! 0%nat;
               Option_2 := o !!! 1%nat;
               Option_3 := o !!! 2%nat;
               Option_4 := o !!! 3%nat;
               Option_5 := o !!! 4%nat;
               Correct_Answer := "1";
               Time_in_seconds := "30";
               Image_Link := "";
               Answer_explanation :=
                 answer_explanation correct candidate_word topic |}, s)
  end.

(** ** The per-topic loop *)

(** [n < a / b] for Python's true division of the integers [a] and [b > 0]:
    the quotient is compared as a number, not truncated. *)
Definition lt_true_div (n a b : Z) : bool := bool_decide (n * b < a).

Definition thesaurus_entry (candidate topic : string) (syns ants : list string)
  : thesaurus_item :=
  {| th_Word := candidate;
     th_Topic := topic;
     th_Synonyms := PyStr.join ", " syns;
     th_Antonyms := PyStr.join ", " ants |}.

Definition definitions_entry (candidate topic : string) (definitions : list string)
  : definitions_item :=
  {| df_Word := candidate;
     df_Topic := topic;
     df_Definition := PyStr.join " | " definitions |}.

Section Loop.

Variable net : network.
Variable WORD_COUNT : Z.
Variable topic : string.

(** What one round does with a [candidate] that is not in [used_words]
    (the statements after the [continue]).  The log line
    "Processing candidate word: ... for topic: ..." is kept in
    [processing_log]; the other log lines and the progress bar are
    not modelled. *)
Definition process_candidate (candidate : string) (c : loop_state) : loop_state :=
  let s := globals c in
  let s := set_processing_log (processing_log s ++ [(candidate, topic)]) s in
  let s := set_used_words ({[candidate]} ∪ used_words s) s in
  let topic_used_words := topic_used_words c + 1 in
  let '((related_words, definitions), s) := scrape_cambridge_info net candidate s in
  let '(new_related, s) :=
    alloc (filter (λ w, w ∉ used_words s) related_words) s in
  let s := set_used_words ({[candidate]} ∪ used_words s) s in
  let s := store (queue c) (deref s (queue c) ++ deref s new_related) s in
  let '(quiz_item, s) := create_quiz_item topic candidate new_related s in
  let s := match quiz_item with
           | Some qi => set_quiz_items (quiz_items s ++ [qi]) s
           | None => s
           end in
  let '((syns, ants), s) := scrape_cambridge_thesaurus net candidate s in
  let s := if bool_decide (syns ≠ [] ∨ ants ≠ [])
           then set_thesaurus_items
                  (thesaurus_items s ++ [thesaurus_entry candidate topic syns ants]) s
           else s in
  let s := if bool_decide (definitions ≠ [])
           then set_definitions_items
                  (definitions_items s ++ [definitions_entry candidate topic definitions]) s
           else s in
  LoopState (queue c) topic_used_words s.

(** One round of [while queue and topic_used_words < (WORD_COUNT/5)]:
    [None] when the loop condition fails, otherwise the state after the
    round. *)
Definition iteration (c : loop_state) : option loop_state :=
  match deref (globals c) (queue c) with
  | [] => None
  | candidate :: rest =>
      if lt_true_div (topic_used_words c) WORD_COUNT 5 then
        let c := LoopState (queue c) (topic_used_words c)
                           (store (queue c) rest (globals c)) in
        if bool_decide (candidate ∈ used_words (globals c)) then Some c
        else Some (process_candidate candidate c)
      else None
  end.

(** The loop run with a bound on the number of rounds; [None] when the
    bound is reached before the loop condition fails. *)
Fixpoint loop_fuel (fuel : nat) (c : loop_state) : option loop_state :=
  match iteration c with
  | None => Some c
  | Some c' =>
      match fuel with
      | O => None
      | S fuel' => loop_fuel fuel' c'
      end
  end.

(** [c'] follows [c] by one round. *)
Definition round (c' c : loop_state) : Prop := iteration c = Some c'.

(** What decreases at each round: the room left under the quota, then the
    length of the queue. *)
Definition loop_measure (c : loop_state) : nat * nat :=
  (Z.to_nat (WORD_COUNT + 5 - topic_used_words c * 5),
   length (deref (globals c) (queue c))).

End Loop.

(** ** Termination of the loop, and the loop as a total function *)

Lemma deref_store l v s : deref (store l v s) l = v.
Proof. unfold deref, store; simpl. by rewrite lookup_total_insert_eq. Qed.

Lemma deref_store_ne l l' v s : l ≠ l' → deref (store l v s) l' = deref s l'.
Proof. intros. unfold deref, store; simpl. by rewrite lookup_total_insert_ne. Qed.

Lemma process_candidate_queue net topic candidate c :
  queue (process_candidate net topic candidate c) = queue c.
Proof.
  unfold process_candidate.
  repeat match goal with |- context [let '(_, _) := ?e in _] => destruct e end.
  reflexivity.
Qed.

Lemma process_candidate_count net topic candidate c :
  topic_used_words (process_candidate net topic candidate c)
  = topic_used_words c + 1.
Proof.
  unfold process_candidate.
  repeat match goal with |- context [let '(_, _) := ?e in _] => destruct e end.
  reflexivity.
Qed.

(** The two shapes of a round: a skipped candidate, or a processed one. *)
Lemma iteration_cases net W topic c c' :
  iteration net W topic c = Some c' →
  ∃ candidate rest,
    deref (globals c) (queue c) = candidate :: rest
    ∧ topic_used_words c * 5 < W
    ∧ let popped := LoopState (queue c) (topic_used_words c)
                              (store (queue c) rest (globals c)) in
      ((candidate ∈ used_words (globals c)) ∧ c' = popped)
      ∨ ((candidate ∉ used_words (globals c))
         ∧ c' = process_candidate net topic candidate popped).
Proof.
  unfold iteration, lt_true_div. intros H.
  destruct (deref (globals c) (queue c)) as [|candidate rest]; [done|].
  case_bool_decide; [|done].
  exists candidate, rest. split; [done|]. split; [done|].
  simpl in *. case_bool_decide; simplify_eq; auto.
Qed.

Lemma round_decreases net W topic c c' :
  round net W topic c' c →
  slexprod _ _ lt lt (loop_measure W c') (loop_measure W c).
Proof.
  intros (candidate & rest & Hq & Hlt & [[_ ->] | [_ ->]])%iteration_cases;
    unfold loop_measure.
  - simpl. rewrite deref_store, Hq. apply right_slex. simpl. lia.
  - rewrite process_candidate_count. simpl. apply left_slex. lia.
Qed.

Lemma round_wf net W topic : well_founded (round net W topic).
Proof.
  apply (wf_incl _ _ (λ c' c, slexprod _ _ lt lt (loop_measure W c') (loop_measure W c))).
  - intros c' c. apply round_decreases.
  - apply (wf_inverse_image _ _ (slexprod _ _ lt lt) (loop_measure W)).
    apply wf_slexprod; apply lt_wf.
Qed.

#[export] Instance round_WellFounded net W topic
  : WellFounded (round net W topic) := round_wf net W topic.

Definition inspect {A} (a : A) : {b : A | a = b} := exist _ a eq_refl.

Section TopicLoop.

Variable net : network.
Variable WORD_COUNT : Z.
Variable topic : string.

(** The [while] loop of one topic.  A round that happens is one step down
    the well-founded relation [round], so the loop runs to its end on
    every state and every network. *)
Equations? topic_loop (c : loop_state) : loop_state
  by wf c (round net WORD_COUNT topic) :=
  topic_loop c with inspect (iteration net WORD_COUNT topic c) := {
    | exist _ (Some c') Hround => topic_loop c';
    | exist _ None _ => c }.
Proof. exact Hround. Qed.

End TopicLoop.

(** ** The script body *)

Section Main.

Variable net : network.
Variable WORD_COUNT : Z.

(** [candidate_words] maps a topic to the list object holding its seeds. *)
Variable candidate_words : gmap string loc.

(** One round of [for topic in topics]:
    [queue = candidate_words.get(topic, []).copy()], the counter reset,
    and the [while] loop. *)
Definition process_topic (topic : string) (s : state) : state :=
  let '(seeds, s) :=
    match candidate_words !! topic with
    | Some l => (l, s)
    | None => alloc [] s
    end in
  let '(queue, s) := alloc (deref s seeds) s in
  let topic_used_words := 0 in
  globals (topic_loop net WORD_COUNT topic (LoopState queue topic_used_words s)).

Definition main_loop (topics : list string) (s : state) : state :=
  fold_left (λ s topic, process_topic topic s) topics s.

(** The same two loops with a bound on the rounds of each [while] loop. *)
Definition process_topic_fuel (fuel : nat) (topic : string) (s : state)
  : option state :=
  let '(seeds, s) :=
    match candidate_words !! topic with
    | Some l => (l, s)
    | None => alloc [] s
    end in
  let '(queue, s) := alloc (deref s seeds) s in
  globals <$> loop_fuel net WORD_COUNT topic fuel (LoopState queue 0 s).

Fixpoint main_loop_fuel (fuel : nat) (topics : list string) (s : state)
  : option state :=
  match topics with
  | [] => Some s
  | topic :: rest =>
      match process_topic_fuel fuel topic s with
      | Some s' => main_loop_fuel fuel rest s'
      | None => None
      end
  end.

End Main.

(** ** The configuration written in the script *)

Definition WORD_COUNT : Z := 10000.

Definition topics : list string :=
  [ "Preserving Our Heritage";
    "Education Options for School-Leavers";
    "Becoming Independent";
    "Social Issues";
    "The Ecosystem" ].

(** The literal of [candidate_words], in the order it is written. *)
Definition candidate_words_literal : list (string * list string) :=
  [ ("Preserving Our Heritage",
     [ "old"; "past"; "tradition"; "culture"; "custom"; "legacy"; "memory";
       "history"; "heritage"; "old-fashioned"; "ancestry"; "roots"; "folklore";
       "relic"; "museum"; "antique"; "preservation"; "conservation"; "time";
       "story" ]);
    ("Education Options for School-Leavers",
     [ "school"; "college"; "job"; "training"; "internship"; "trade"; "study";
       "courses"; "classes"; "program"; "career"; "skills"; "diploma"; "degree";
       "exam"; "workshop"; "tutoring"; "mentorship"; "online"; "campus" ]);
    ("Becoming Independent",
     [ "alone"; "self"; "free"; "grown-up"; "adult"; "responsible"; "choice";
       "decide"; "self-help"; "standalone"; "budget"; "work"; "money";
       "planning"; "cooking"; "cleaning"; "driving"; "renting"; "saving";
       "support" ]);
    ("Social Issues",
     [ "poverty"; "racism"; "unfairness"; "crime"; "homeless"; "health";
       "drugs"; "violence"; "discrimination"; "rights"; "hunger"; "waste";
       "education"; "family"; "income"; "gap"; "abuse"; "bullying"; "justice";
       "community" ]);
    ("The Ecosystem",
     [ "nature"; "plants"; "animals"; "water"; "air"; "earth"; "forest";
       "trees"; "rivers"; "pollution"; "soil"; "climate"; "wildlife"; "ocean";
       "grass"; "ecosystem"; "habitat"; "species"; "weather"; "recycle" ]) ].

(** The state in which the script body starts: nothing used, nothing
    collected, no request made, no list object. *)
Definition empty_state : state :=
  {| heap := ∅; used_words := ∅; quiz_items := []; thesaurus_items := [];
     definitions_items := []; requests := 0%nat; processing_log := [] |}.

(** Evaluating a dict literal: one list object per value; a later entry for
    the same key replaces the earlier one. *)
Fixpoint load_candidate_words (literal : list (string * list string))
    (cw : gmap string loc) (s : state) : gmap string loc * state :=
  match literal with
  | [] => (cw, s)
  | (topic, seeds) :: rest =>
      let '(l, s) := alloc seeds s in
      load_candidate_words rest (<[topic := l]> cw) s
  end.

Definition candidate_words : gmap string loc :=
  (load_candidate_words candidate_words_literal ∅ empty_state).1.

Definition initial_state : state :=
  (load_candidate_words candidate_words_literal ∅ empty_state).2.

(** The whole traversal of the script, on a given network. *)
Definition engbot (net : network) : state :=
  main_loop net WORD_COUNT candidate_words topics initial_state.

(** The traversal on a configuration given as a literal, for a target size
    [W] and a list of topic names [ts]. *)
Definition expand (net : network) (W : Z)
    (literal : list (string * list string)) (ts : list string) : state :=
  let '(cw, s) := load_candidate_words literal ∅ empty_state in
  main_loop net W cw ts s.

(** ** What a lookup returns, as a function of what it can observe *)

(** [scrape_cambridge_info] reads the request counter and [used_words] and
    nothing else of the state; [info_at net n used word] is what it returns
    when it issues request number [n] while [used_words = used]. *)
Definition info_at (net : network) (n : nat) (used : gset string) (word : string)
  : list string * list string :=
  (scrape_cambridge_info net word
     (set_requests n (set_used_words used empty_state))).1.

(** [scrape_cambridge_thesaurus] reads the request counter only. *)
Definition thesaurus_at (net : network) (n : nat) (word : string)
  : list string * list string :=
  (scrape_cambridge_thesaurus net word (set_requests n empty_state)).1.

(** The words that [process_candidate] puts into the list object
    [new_related] when it starts from the globals [s]. *)
Definition new_related_of (net : network) (candidate : string) (s : state)
  : list string :=
  let seen := {[candidate]} ∪ used_words s in
  filter (λ w, w ∉ seen) (info_at net (requests s) seen candidate).1.

(** The option list as the specification words it: the first five entries,
    right-padded with empty strings to length five. *)
Definition padded_options (related : list string) : list string :=
  take 5 related ++ replicate (5 - length (take 5 related)) "".

(** The record as the specification words it. *)
Definition quiz_record (topic candidate_word : string) (related : list string)
  : option quiz_item :=
  match related with
  | [] => None
  | correct :: _ =>
      let o := padded_options related in
      Some {| Question_Text := question_text candidate_word;
              Question_Type := "Multiple Choice";
              Option_1 := o !!! 0%nat;
              Option_2 := o !!! 1%nat;
              Option_3 := o !!! 2%nat;
              Option_4 := o !!! 3%nat;
              Option_5 := o !!! 4%nat;
              Correct_Answer := "1";
              Time_in_seconds := "30";
              Image_Link := "";
              Answer_explanation :=
                answer_explanation correct candidate_word topic |}
  end.

(** Number of words processed under [topic] according to the log. *)
Definition processed_under (topic : string) (s : state) : nat :=
  length (filter (λ e, e.2 = topic) (processing_log s)).

(** The words processed, in order. *)
Definition processed_words (s : state) : list string := (processing_log s).*1.

(** A failed primary lookup: a transport exception, a status other than
    200, or a page with neither the related-words container nor a
    definition block. *)
Definition info_fails (r : http_result) : Prop :=
  match r with
  | RequestException => True
  | Response status_code page =>
      status_code ≠ 200 ∨ (daccord_lb page = None ∧ def_elements page = [])
  end.

(** A failed thesaurus lookup: a transport exception, a status other than
    200, or a page with neither a synonym nor an antonym section. *)
Definition thesaurus_fails (r : http_result) : Prop :=
  match r with
  | RequestException => True
  | Response status_code page =>
      status_code ≠ 200 ∨ (syn_container page = None ∧ ant_container page = None)
  end.

(** A parsed page whose related-words container lists [titles] and whose
    definition blocks read [defs]; no thesaurus section. *)
Definition info_page (titles defs : list string) : soup :=
  {| daccord_lb := Some ((λ t, Some (Anchor (Some t) None)) <$> titles);
     def_elements := defs;
     syn_container := None;
     ant_container := None |}.

(** A network that serves [info_page] of [related w] and [defs w] on the
    dictionary URL of each word [w] of [words], and fails everywhere else. *)
Fixpoint serve (words : list string) (related defs : string → list string)
    (url : string) : http_result :=
  match words with
  | [] => RequestException
  | w :: rest =>
      if bool_decide (url = info_url w)
      then Response 200 (info_page (related w) (defs w))
      else serve rest related defs url
  end.

(** ** Heaps after the builder and after a processed candidate *)

(** The heap after [create_quiz_item] on a non-empty list: one new list
    object, the padded option list. *)
Definition heap_with_options (h : gmap loc (list string)) (related : list string)
  : gmap loc (list string) :=
  match related with
  | [] => h
  | _ => <[fresh (dom h) := padded_options related]> h
  end.

(** The heap after [process_candidate]: the list object [new_related], the
    extended queue, and the option list when a quiz item is built. *)
Definition heap_after (h : gmap loc (list string)) (queue : loc)
    (new_related : list string) : gmap loc (list string) :=
  heap_with_options
    (<[queue := (h !!! queue) ++ new_related]> (<[fresh (dom h) := new_related]> h))
    new_related.

(** ** Invariants of the loop *)

(** The queue of a topic is a list object of the heap all along. *)
Definition queue_allocated (c : loop_state) : Prop :=
  queue c ∈ dom (heap (globals c)).

(** The seen set is exactly the set of processed words, no word was
    processed twice, and every record of the three collections belongs to a
    processed word, in processing order. *)
Record dedup_inv (s : state) : Prop := DedupInv {
  dedup_log : NoDup (processed_words s);
  dedup_used : used_words s = list_to_set (processed_words s);
  dedup_quiz :
    (Question_Text <$> quiz_items s) `sublist_of` (question_text <$> processed_words s);
  dedup_thesaurus : (th_Word <$> thesaurus_items s) `sublist_of` processed_words s;
  dedup_definitions : (df_Word <$> definitions_items s) `sublist_of` processed_words s
}.

(** What a topic's loop keeps true from the state [s] it starts in: the log
    of the other topics is untouched, the log of this topic grew by
    [topic_used_words], and the counter went one past a value below the
    quota at most. *)
Record quota_inv (W : Z) (topic : string) (s : state) (c : loop_state) : Prop :=
  QuotaInv {
    quota_others :
      ∀ t, t ≠ topic → processed_under t (globals c) = processed_under t s;
    quota_counted :
      Z.of_nat (processed_under topic (globals c))
      = Z.of_nat (processed_under topic s) + topic_used_words c;
    quota_nonneg : 0 ≤ topic_used_words c;
    quota_bound : topic_used_words c = 0 ∨ (topic_used_words c - 1) * 5 < W
}.

(** What a topic's loop keeps true of the heap [h0] it found: its queue is
    a list object that [h0] does not have, and every list object of [h0]
    still holds what it held. *)
Record frame_inv (h0 : gmap loc (list string)) (c : loop_state) : Prop :=
  FrameInv {
    frame_queue_new : queue c ∉ dom h0;
    frame_queue_allocated : queue_allocated c;
    frame_kept : ∀ l, l ∈ dom h0 → heap (globals c) !! l = h0 !! l
}.

(** ** Concrete worlds *)

(** A parsed thesaurus page with the given synonym and antonym items. *)
Definition thesaurus_page (syns ants : list string) : soup :=
  {| daccord_lb := None;
     def_elements := [];
     syn_container := Some ((λ t, Some (Anchor None (Some t))) <$> syns);
     ant_container := Some ((λ t, Some (Anchor None (Some t))) <$> ants) |}.

(** A small world for concrete runs: the dictionary page of "run" lists
    "Run", "sprint", " Jog " and "sprint" again and has two definitions
    around an empty block; its thesaurus page has the synonyms "Dash",
    "dash", "race" and the antonym "walk"; every other request (so every
    request for "zebra") fails. *)
Definition example_net : network :=
  λ _ url,
    if bool_decide (url = info_url "run") then
      Response 200 (info_page ["Run"; "sprint"; " Jog "; "sprint"]
                              ["move fast"; ""; "operate"])
    else if bool_decide (url = thesaurus_url "run") then
      Response 200 (thesaurus_page ["Dash"; "dash"; "race"] ["walk"])
    else RequestException.

(** A loop state with the queue ["run"; "zebra"] and nothing seen. *)
Definition example_start : loop_state :=
  LoopState 1%positive 0 (store 1%positive ["run"; "zebra"] empty_state).

(** The state one round later, and two rounds later. *)
Definition example_after_run : loop_state :=
  process_candidate example_net "T1" "run"
    (LoopState 1%positive 0 (store 1%positive ["zebra"] empty_state)).

Definition example_after_zebra : loop_state :=
  process_candidate example_net "T1" "zebra"
    (LoopState (queue example_after_run) (topic_used_words example_after_run)
       (store (queue example_after_run)
              ["sprint"; "jog"; "sprint"] (globals example_after_run))).

(** A network for the breadth-first scenario: the page of "a" lists
    "c", the page of "b" lists "d", every other request fails. *)
Definition bfs_net : network :=
  λ _, serve ["a"; "b"]
         (λ w, if bool_decide (w = "a") then ["c"] else ["d"])
         (λ _, []).

(** The state used to exercise the builder: one list object, at location
    1, holding two related words. *)
Definition two_related : state := store 1%positive ["c"; "d"] empty_state.

(** ** Vocabulary for further properties of the lookups and the run *)

(** The [title] attributes that the related-words loop reads, in page
    order: one for each [<li>] whose [<a>] exists and has the attribute. *)
Definition titles_of (li_elements : list (option anchor)) : list string :=
  omap (λ li, li ≫= a_title) li_elements.

(** The span texts that a thesaurus loop reads, in page order. *)
Definition span_texts (items : list (option anchor)) : list string :=
  omap (λ item, item ≫= a_span) items.

(** The five option fields of a quiz record, in order. *)
Definition options_of (qi : quiz_item) : list string :=
  [Option_1 qi; Option_2 qi; Option_3 qi; Option_4 qi; Option_5 qi].

(** [s'] extends [s]: nothing seen is forgotten, every collection and the
    log only got longer at the back, and the request counter did not go
    down. *)
Record extends_state (s s' : state) : Prop := ExtendsState {
  ext_used : used_words s ⊆ used_words s';
  ext_quiz : quiz_items s `prefix_of` quiz_items s';
  ext_thesaurus : thesaurus_items s `prefix_of` thesaurus_items s';
  ext_definitions : definitions_items s `prefix_of` definitions_items s';
  ext_log : processing_log s `prefix_of` processing_log s';
  ext_requests : (requests s ≤ requests s')%nat
}.

(** [s'] differs from [s] in the heap at most. *)
Definition same_globals (s s' : state) : Prop :=
  ∃ h, s' = set_heap h s.

(** The seeds a topic starts from in the state [s]:
    [candidate_words.get(topic, [])]. *)
Definition seeds_of (cw : gmap string loc) (s : state) (topic : string)
  : list string :=
  match cw !! topic with
  | Some l => deref s l
  | None => []
  end.

(** The loop state in which the [while] loop of a topic starts: the queue
    is the copy of the seed list, the counter is 0. *)
Definition topic_start (cw : gmap string loc) (topic : string) (s : state)
  : loop_state :=
  let '(seeds, s) :=
    match cw !! topic with
    | Some l => (l, s)
    | None => alloc [] s
    end in
  let '(queue, s) := alloc (deref s seeds) s in
  LoopState queue 0 s.

(** A quiz record that belongs to a line [(w, t)] of the log: it asks about
    [w], its first option is a word, no option is [w], and the explanation
    names the first option, [w] and [t]. *)
Definition well_formed_quiz (log : list (string * string)) (qi : quiz_item)
  : Prop :=
  ∃ w t,
    (w, t) ∈ log
    ∧ Question_Text qi = question_text w
    ∧ Option_1 qi ≠ ""
    ∧ Forall (λ o, o ≠ w) (filter (λ o, o ≠ "") (options_of qi))
    ∧ Correct_Answer qi = "1"
    ∧ Answer_explanation qi = answer_explanation (Option_1 qi) w t.

(** A thesaurus record that belongs to a line of the log and is not blank. *)
Definition well_formed_thesaurus (log : list (string * string))
    (r : thesaurus_item) : Prop :=
  (th_Word r, th_Topic r) ∈ log
  ∧ (th_Synonyms r ≠ "" ∨ th_Antonyms r ≠ "").

(** A definition record that belongs to a line of the log and is not blank. *)
Definition well_formed_definitions (log : list (string * string))
    (d : definitions_item) : Prop :=
  (df_Word d, df_Topic d) ∈ log ∧ df_Definition d ≠ "".

(** What the three collections keep true, with the log they refer to. *)
Record records_inv (s : state) : Prop := RecordsInv {
  records_quiz : Forall (well_formed_quiz (processing_log s)) (quiz_items s);
  records_thesaurus :
    Forall (well_formed_thesaurus (processing_log s)) (thesaurus_items s);
  records_definitions :
    Forall (well_formed_definitions (processing_log s)) (definitions_items s)
}.

(** [w] was found on the page of a word processed before line [i] of the
    log: line [j < i] of the log is a word [w'] processed under [topic], and
    [w] is in the related list that the primary lookup of [w'] returned.  In
    a run from the empty state that lookup was request number [2 * j], and
    it read a seen set made of the [j] words processed before and of [w']
    itself. *)
Definition found_before (net : network) (log : list (string * string))
    (i : nat) (topic w : string) : Prop :=
  ∃ j w',
    (j < i)%nat
    ∧ log !! j = Some (w', topic)
    ∧ w ∈ (info_at net (2 * j) (list_to_set (w' :: take j log.*1)) w').1.

(** What a run from the empty state keeps true of its log, for the seed
    lists [seeds]: two requests were made per line, the seen set is the set
    of logged words, and every logged word is a seed of its topic or was
    found on the page of a word logged earlier under the same topic. *)
Record provenance_inv (net : network) (seeds : string → list string)
    (s : state) : Prop := ProvenanceInv {
  prov_requests : requests s = (2 * length (processing_log s))%nat;
  prov_used : used_words s = list_to_set (processing_log s).*1;
  prov_log :
    ∀ i w t, processing_log s !! i = Some (w, t) →
      w ∈ seeds t ∨ found_before net (processing_log s) i t w
}.

(** The words waiting in the queue of a topic are seeds of the topic or
    were found on the page of a word of the log. *)
Definition queue_found (net : network) (seeds : string → list string)
    (topic : string) (c : loop_state) : Prop :=
  let log := processing_log (globals c) in
  Forall (λ w, w ∈ seeds topic ∨ found_before net log (length log) topic w)
         (deref (globals c) (queue c)).

(** ** The loop and its rounds *)

Lemma topic_loop_step net W topic c :
  topic_loop net W topic c
  = match iteration net W topic c with
    | Some c' => topic_loop net W topic c'
    | None => c
    end.
Proof.
  rewrite topic_loop_equation_1. unfold topic_loop_unfold_clause_1, inspect.
  enough (∀ o (e : iteration net W topic c = o),
    match o as o0 return iteration net W topic c = o0 → loop_state with
    | Some l => λ _, topic_loop net W topic l
    | None => λ _, c
    end e = match o with Some c' => topic_loop net W topic c' | None => c end)
    as H by apply H.
  by intros [c'|] e.
Qed.

(** A property kept by every round holds when the loop ends, and the loop
    ends in a state where its condition fails. *)
Lemma topic_loop_rule net W topic (I : loop_state → Prop) :
  (∀ c c', I c → iteration net W topic c = Some c' → I c') →
  ∀ c, I c →
    I (topic_loop net W topic c)
    ∧ iteration net W topic (topic_loop net W topic c) = None.
Proof.
  intros Hstep c. induction (round_wf net W topic c) as [c _ IH]. intros Hc.
  rewrite topic_loop_step.
  destruct (iteration net W topic c) as [c'|] eqn:Hit.
  - apply IH; [exact Hit | by eapply Hstep].
  - by rewrite Hit.
Qed.

Lemma loop_fuel_sound net W topic fuel c r :
  loop_fuel net W topic fuel c = Some r → topic_loop net W topic c = r.
Proof.
  revert c. induction fuel as [|fuel IH]; intros c; simpl;
    rewrite topic_loop_step; destruct (iteration net W topic c); naive_solver.
Qed.

Lemma loop_fuel_mono net W topic fuel fuel' c r :
  (fuel ≤ fuel')%nat →
  loop_fuel net W topic fuel c = Some r → loop_fuel net W topic fuel' c = Some r.
Proof.
  revert fuel' c. induction fuel as [|fuel IH]; intros fuel' c Hle; simpl.
  - destruct fuel'; simpl; destruct (iteration net W topic c); naive_solver.
  - destruct fuel' as [|fuel']; [lia|]. simpl.
    destruct (iteration net W topic c); [|done]. apply IH. lia.
Qed.

Lemma loop_fuel_complete net W topic c :
  ∃ fuel, loop_fuel net W topic fuel c = Some (topic_loop net W topic c).
Proof.
  induction (round_wf net W topic c) as [c _ IH].
  rewrite topic_loop_step.
  destruct (iteration net W topic c) as [c'|] eqn:Hit.
  - destruct (IH c' Hit) as [fuel Hfuel]. exists (S fuel). simpl. by rewrite Hit.
  - exists O. simpl. by rewrite Hit.
Qed.

(** ** The lookups as functions of what they observe *)

Lemma scrape_cambridge_info_eq net word s :
  scrape_cambridge_info net word s
  = (info_at net (requests s) (used_words s) word,
     set_requests (S (requests s)) s).
Proof.
  unfold info_at, scrape_cambridge_info, requests_get. simpl.
  destruct (net (requests s) (info_url word)) as [|code page]; [done|].
  case_bool_decide; [done|]. simpl. done.
Qed.

Lemma scrape_cambridge_thesaurus_eq net word s :
  scrape_cambridge_thesaurus net word s
  = (thesaurus_at net (requests s) word, set_requests (S (requests s)) s).
Proof.
  unfold thesaurus_at, scrape_cambridge_thesaurus, requests_get. simpl.
  destruct (net (requests s) (thesaurus_url word)) as [|code page]; [done|].
  case_bool_decide; done.
Qed.

Lemma related_loop_spec used word lis acc :
  related_loop used word lis acc
  = acc ++ related_loop used word lis [].
Proof.
  revert acc. induction lis as [|[[[t|] sp]|] lis IH]; intros acc; simpl.
  - by rewrite app_nil_r.
  - case_bool_decide.
    + rewrite IH, (IH [_]). by rewrite app_assoc.
    + apply IH.
  - apply IH.
  - apply IH.
Qed.

Lemma related_loop_elem used word lis e :
  e ∈ related_loop used word lis [] →
  e ≠ "" ∧ (e ∉ used) ∧ e ≠ lower word
  ∧ ∃ t sp, Some (Anchor (Some t) sp) ∈ lis ∧ e = lower (strip t).
Proof.
  induction lis as [|[[[t|] sp]|] lis IH]; simpl.
  - by intros ?%elem_of_nil.
  - case_bool_decide as Hc.
    + rewrite related_loop_spec. intros [->%list_elem_of_singleton|He]%elem_of_app.
      * destruct Hc as (?&?&?). repeat split; try done.
        exists t, sp. split; [left|done].
      * destruct (IH He) as (?&?&?&t'&sp'&?&?). repeat split; try done.
        exists t', sp'. split; [by right|done].
    + intros He. destruct (IH He) as (?&?&?&t'&sp'&?&?). repeat split; try done.
      exists t', sp'. split; [by right|done].
  - intros He. destruct (IH He) as (?&?&?&t'&sp'&?&?). repeat split; try done.
    exists t', sp'. split; [by right|done].
  - intros He. destruct (IH He) as (?&?&?&t'&sp'&?&?). repeat split; try done.
    exists t', sp'. split; [by right|done].
Qed.

(** ** List objects: allocation, padding, the quiz builder *)

Lemma set_heap_id s : set_heap (heap s) s = s.
Proof. by destruct s. Qed.

Lemma alloc_eq v s :
  alloc v s = (fresh (dom (heap s)), store (fresh (dom (heap s))) v s).
Proof. reflexivity. Qed.

Lemma fresh_not_in_heap (h : gmap loc (list string)) l :
  l ∈ dom h → l ≠ fresh (dom h).
Proof. intros Hl ->. by apply (is_fresh (dom h)). Qed.

Lemma pad_options_spec fuel options s v :
  heap s !! options = Some v →
  pad_options fuel options s
  = set_heap (<[options := v ++ replicate (fuel `min` (5 - length v)) ""]> (heap s)) s.
Proof.
  revert s v. induction fuel as [|fuel IH]; intros s v Hv; cbn [pad_options].
  - simpl. rewrite app_nil_r. rewrite insert_id by done. by rewrite set_heap_id.
  - unfold deref. rewrite (lookup_total_correct _ _ _ Hv).
    case_bool_decide as Hlen.
    + replace (S fuel `min` (5 - length v))%nat
        with (S (fuel `min` (5 - length (v ++ [""]))))%nat
        by (rewrite length_app; cbn [length]; lia).
      rewrite (IH _ (v ++ [""])); [|by apply lookup_insert_eq].
      unfold store, set_heap. cbn [heap used_words quiz_items thesaurus_items
        definitions_items requests processing_log replicate].
      rewrite insert_insert_eq. by rewrite <- app_assoc.
    + replace (S fuel `min` (5 - length v))%nat with O by lia.
      simpl. rewrite app_nil_r. rewrite insert_id by done. by rewrite set_heap_id.
Qed.

Lemma padded_options_length related : length (padded_options related) = 5%nat.
Proof.
  unfold padded_options. rewrite length_app, length_replicate, length_take. lia.
Qed.

Lemma create_quiz_item_spec topic candidate_word related_synonyms s related :
  heap s !! related_synonyms = Some related →
  create_quiz_item topic candidate_word related_synonyms s
  = (quiz_record topic candidate_word related,
     set_heap (heap_with_options (heap s) related) s).
Proof.
  intros Hr. unfold create_quiz_item, deref, heap_with_options, quiz_record.
  rewrite (lookup_total_correct _ _ _ Hr).
  destruct related as [|correct rest]; [by rewrite set_heap_id|].
  rewrite alloc_eq. cbv beta iota zeta.
  set (nr := correct :: rest) in *.
  set (l := fresh (dom (heap s))).
  rewrite (pad_options_spec 5 l _ (take 5 nr)); [|apply lookup_insert_eq].
  unfold deref, store, set_heap.
  cbn [heap used_words quiz_items thesaurus_items definitions_items requests
       processing_log].
  rewrite insert_insert_eq, lookup_total_insert_eq.
  replace (5 `min` (5 - length (take 5 nr)))%nat
    with (5 - length (take 5 nr))%nat by lia.
  reflexivity.
Qed.

(** ** One processed candidate, spelled out *)

Lemma process_candidate_spec net topic candidate c :
  let s := globals c in
  let seen := {[candidate]} ∪ used_words s in
  let info := info_at net (requests s) seen candidate in
  let new_related := new_related_of net candidate s in
  let thes := thesaurus_at net (S (requests s)) candidate in
  queue c ∈ dom (heap s) →
  process_candidate net topic candidate c
  = LoopState (queue c) (topic_used_words c + 1)
      {| heap := heap_after (heap s) (queue c) new_related;
         used_words := seen;
         quiz_items :=
           quiz_items s ++ option_list (quiz_record topic candidate new_related);
         thesaurus_items :=
           thesaurus_items s ++
             (if bool_decide (thes.1 ≠ [] ∨ thes.2 ≠ [])
              then [thesaurus_entry candidate topic thes.1 thes.2] else []);
         definitions_items :=
           definitions_items s ++
             (if bool_decide (info.2 ≠ [])
              then [definitions_entry candidate topic info.2] else []);
         requests := S (S (requests s));
         processing_log := processing_log s ++ [(candidate, topic)] |}.
Proof.
  intros s seen info new_related thes Hq.
  assert (queue c ≠ fresh (dom (heap s))) as Hne by by apply fresh_not_in_heap.
  assert (filter (λ w, w ∉ seen) info.1 = new_related) as Hnr by done.
  unfold process_candidate. fold s.
  rewrite scrape_cambridge_info_eq. simpl_state. fold seen. fold info.
  destruct info as [related_words definitions].
  rewrite alloc_eq. simpl_state. rewrite Hnr.
  rewrite lookup_total_insert_eq, (lookup_total_insert_ne _ _ (queue c)) by done.
  erewrite create_quiz_item_spec;
    [|simpl_state; rewrite lookup_insert_ne by done; apply lookup_insert_eq].
  rewrite scrape_cambridge_thesaurus_eq.
  destruct (quiz_record topic candidate new_related); simpl_state.
  all: subst thes; destruct (thesaurus_at net (S (requests s)) candidate)
    as [syns ants]; simpl_state.
  all: unfold seen; rewrite (assoc_L (∪)), (idemp_L (∪)).
  all: unfold heap_after.
  all: repeat case_bool_decide; simpl; rewrite ?app_nil_r; reflexivity.
Qed.

Lemma fresh_heap_ne (h : gmap loc (list string)) l :
  l ∈ dom h → fresh (dom h) ≠ l.
Proof. intros Hl Heq. by apply (fresh_not_in_heap h l). Qed.

Lemma heap_with_options_lookup (h : gmap loc (list string)) related l :
  l ∈ dom h → heap_with_options h related !! l = h !! l.
Proof.
  intros Hl. unfold heap_with_options. destruct related; [done|].
  apply lookup_insert_ne. by apply fresh_heap_ne.
Qed.

Lemma heap_with_options_dom (h : gmap loc (list string)) related :
  dom h ⊆ dom (heap_with_options h related).
Proof.
  unfold heap_with_options. destruct related; [done|].
  rewrite dom_insert_L. apply union_subseteq_r.
Qed.

Lemma heap_after_dom (h : gmap loc (list string)) q nr :
  dom h ⊆ dom (heap_after h q nr).
Proof.
  unfold heap_after. etrans; [|apply heap_with_options_dom].
  rewrite !dom_insert_L. etrans; [|apply union_subseteq_r]. apply union_subseteq_r.
Qed.

Ltac in_dom :=
  rewrite ?dom_insert_L;
  repeat first [ assumption
               | apply elem_of_union_l, elem_of_singleton; reflexivity
               | apply elem_of_union_r ].

Lemma heap_after_lookup_ne (h : gmap loc (list string)) q nr l :
  l ∈ dom h → l ≠ q → heap_after h q nr !! l = h !! l.
Proof.
  intros Hl Hne. unfold heap_after.
  rewrite heap_with_options_lookup by in_dom.
  rewrite lookup_insert_ne by done.
  apply lookup_insert_ne. by apply fresh_heap_ne.
Qed.

Lemma heap_after_queue (h : gmap loc (list string)) q nr :
  q ∈ dom h → heap_after h q nr !! q = Some ((h !!! q) ++ nr).
Proof.
  intros Hq. unfold heap_after.
  rewrite heap_with_options_lookup by in_dom.
  apply lookup_insert_eq.
Qed.

Lemma heap_after_new_related (h : gmap loc (list string)) q nr :
  q ∈ dom h → heap_after h q nr !! fresh (dom h) = Some nr.
Proof.
  intros Hq. unfold heap_after.
  rewrite heap_with_options_lookup by in_dom.
  rewrite lookup_insert_ne by by apply fresh_not_in_heap.
  apply lookup_insert_eq.
Qed.

(** A round, spelled out: the candidate is popped; if it was seen the round
    ends there, otherwise the globals change as [process_candidate_spec]
    says, from the state after the pop. *)
Lemma iteration_spec net W topic c c' :
  queue c ∈ dom (heap (globals c)) →
  iteration net W topic c = Some c' →
  ∃ candidate rest,
    heap (globals c) !! queue c = Some (candidate :: rest)
    ∧ topic_used_words c * 5 < W
    ∧ queue c' = queue c
    ∧ queue c ∈ dom (heap (globals c'))
    ∧ let popped := store (queue c) rest (globals c) in
      ((candidate ∈ used_words (globals c))
       ∧ c' = LoopState (queue c) (topic_used_words c) popped)
      ∨ ((candidate ∉ used_words (globals c))
         ∧ c' = process_candidate net topic candidate
                  (LoopState (queue c) (topic_used_words c) popped)
         ∧ topic_used_words c' = topic_used_words c + 1
         ∧ globals c'
           = let s := popped in
             let seen := {[candidate]} ∪ used_words s in
             let info := info_at net (requests s) seen candidate in
             let new_related := new_related_of net candidate s in
             let thes := thesaurus_at net (S (requests s)) candidate in
             {| heap := heap_after (heap s) (queue c) new_related;
                used_words := seen;
                quiz_items :=
                  quiz_items s
                    ++ option_list (quiz_record topic candidate new_related);
                thesaurus_items :=
                  thesaurus_items s ++
                    (if bool_decide (thes.1 ≠ [] ∨ thes.2 ≠ [])
                     then [thesaurus_entry candidate topic thes.1 thes.2]
                     else []);
                definitions_items :=
                  definitions_items s ++
                    (if bool_decide (info.2 ≠ [])
                     then [definitions_entry candidate topic info.2] else []);
                requests := S (S (requests s));
                processing_log := processing_log s ++ [(candidate, topic)] |}).
Proof.
  intros Hq (candidate & rest & Hd & Hlt & Hcases)%iteration_cases.
  cbv zeta in Hcases. exists candidate, rest.
  assert (heap (globals c) !! queue c = Some (candidate :: rest)) as Hlook.
  { apply elem_of_dom in Hq as [v Hv]. unfold deref in Hd.
    by rewrite (lookup_total_correct _ _ _ Hv) in Hd; subst. }
  assert (queue c ∈ dom (heap (store (queue c) rest (globals c)))) as Hq'.
  { unfold store; simpl. apply elem_of_dom. rewrite lookup_insert_eq. eauto. }
  split; [done|]. split; [done|].
  destruct Hcases as [[Hin ->] | [Hnin ->]].
  - simpl. split; [done|]. split; [done|]. by left.
  - pose proof (process_candidate_spec net topic candidate
        (LoopState (queue c) (topic_used_words c)
           (store (queue c) rest (globals c))) Hq') as Hspec.
    cbv zeta in Hspec. cbn [queue topic_used_words globals] in Hspec.
    split; [by rewrite process_candidate_queue|].
    split.
    { rewrite Hspec. cbn [globals heap].
      eapply elem_of_weaken; [exact Hq' | apply heap_after_dom]. }
    right. split; [done|]. split; [done|].
    split; [by rewrite process_candidate_count|].
    by rewrite Hspec.
Qed.

(** ** From rounds to topics to the whole traversal *)

Lemma iteration_queue_allocated net W topic c c' :
  queue_allocated c → iteration net W topic c = Some c' → queue_allocated c'.
Proof.
  intros Hq (candidate & rest & _ & _ & Hq' & Hdom & _)%iteration_spec; [|done].
  unfold queue_allocated. by rewrite Hq'.
Qed.

Lemma process_topic_eq net W cw topic s :
  ∃ s1 q,
    q ∈ dom (heap s1)
    ∧ (∃ h, s1 = set_heap h s)
    ∧ process_topic net W cw topic s
      = globals (topic_loop net W topic (LoopState q 0 s1)).
Proof.
  unfold process_topic.
  destruct (cw !! topic) as [l|]; rewrite !alloc_eq; cbv beta iota zeta.
  - eexists _, _. split; [|split; [|reflexivity]].
    + unfold store; simpl. apply elem_of_dom. rewrite lookup_insert_eq. eauto.
    + eexists. reflexivity.
  - eexists _, _. split; [|split; [|reflexivity]].
    + unfold store; simpl. apply elem_of_dom. rewrite lookup_insert_eq. eauto.
    + eexists. reflexivity.
Qed.

(** A property of the globals that does not read the heap and is kept by
    every round is kept by a whole topic. *)
Lemma process_topic_rule net W cw topic (P : state → Prop) :
  (∀ s h, P s → P (set_heap h s)) →
  (∀ c c', queue_allocated c → P (globals c) →
           iteration net W topic c = Some c' → P (globals c')) →
  ∀ s, P s → P (process_topic net W cw topic s).
Proof.
  intros Hheap Hround s Hs.
  destruct (process_topic_eq net W cw topic s) as (s1 & q & Hq & [h ->] & ->).
  apply (topic_loop_rule net W topic (λ c, queue_allocated c ∧ P (globals c))).
  - intros c c' [Hqa HP] Hit. split.
    + by eapply iteration_queue_allocated.
    + by eapply Hround.
  - split; [exact Hq | by apply Hheap].
Qed.

Lemma main_loop_rule net W cw ts (P : state → Prop) :
  (∀ topic s, topic ∈ ts → P s → P (process_topic net W cw topic s)) →
  ∀ s, P s → P (main_loop net W cw ts s).
Proof.
  unfold main_loop. induction ts as [|t ts IH]; intros Hstep s Hs; simpl; [done|].
  apply IH.
  - intros topic s' Hin. apply Hstep. by right.
  - apply Hstep; [by left | done].
Qed.

Lemma load_candidate_words_eq literal cw s :
  ∃ h, (load_candidate_words literal cw s).2 = set_heap h s.
Proof.
  revert cw s. induction literal as [|[topic seeds] literal IH]; intros cw s;
    cbn [load_candidate_words].
  - exists (heap s). simpl. by rewrite set_heap_id.
  - rewrite alloc_eq. destruct (IH (<[topic := fresh (dom (heap s))]> cw)
      (store (fresh (dom (heap s))) seeds s)) as [h Hh].
    exists h. rewrite Hh. reflexivity.
Qed.

Lemma expand_eq net W literal ts :
  expand net W literal ts
  = main_loop net W (load_candidate_words literal ∅ empty_state).1 ts
      (load_candidate_words literal ∅ empty_state).2.
Proof. unfold expand. by destruct (load_candidate_words literal ∅ empty_state). Qed.

Lemma engbot_expand net :
  engbot net = expand net WORD_COUNT candidate_words_literal topics.
Proof. by rewrite expand_eq. Qed.

(** ** Strings: the question text determines the word *)

Lemma list_ascii_of_string_app s t :
  list_ascii_of_string (s +:+ t) = list_ascii_of_string s ++ list_ascii_of_string t.
Proof. induction s as [|a s IH]; simpl; [done|]. by rewrite IH. Qed.

Lemma list_ascii_of_string_inj s t :
  list_ascii_of_string s = list_ascii_of_string t → s = t.
Proof.
  intros H. rewrite <- (string_of_list_ascii_of_string s),
    <- (string_of_list_ascii_of_string t). by rewrite H.
Qed.

Lemma string_app_inj_l s1 s2 t : s1 +:+ t = s2 +:+ t → s1 = s2.
Proof.
  intros H. apply list_ascii_of_string_inj.
  apply (f_equal list_ascii_of_string) in H.
  rewrite !list_ascii_of_string_app in H. by apply app_inv_tail in H.
Qed.

#[export] Instance question_text_inj : Inj (=) (=) question_text.
Proof.
  intros w1 w2 H. unfold question_text in H.
  apply String.app_inj in H. by apply string_app_inj_l in H.
Qed.

Lemma quiz_record_text topic candidate_word related qi :
  quiz_record topic candidate_word related = Some qi →
  Question_Text qi = question_text candidate_word.
Proof. destruct related; intros [= <-]; reflexivity. Qed.

(** ** Global deduplication *)

Lemma dedup_inv_set_heap s h : dedup_inv s → dedup_inv (set_heap h s).
Proof. by intros []. Qed.

Lemma dedup_inv_empty : dedup_inv empty_state.
Proof. split; simpl; try done. constructor. Qed.

Lemma sublist_snoc_opt {A} (l k : list A) (x : A) (o : list A) :
  l `sublist_of` k → (o = [] ∨ o = [x]) → (l ++ o) `sublist_of` (k ++ [x]).
Proof.
  intros Hl [-> | ->].
  - rewrite app_nil_r. by apply sublist_inserts_r.
  - by apply sublist_app.
Qed.

Lemma dedup_inv_round net W topic c c' :
  queue_allocated c → dedup_inv (globals c) →
  iteration net W topic c = Some c' → dedup_inv (globals c').
Proof.
  intros Hq Hinv (candidate & rest & _ & _ & _ & _ & Hcases)%iteration_spec; [|done].
  cbv zeta in Hcases.
  destruct Hcases as [[_ ->] | (Hnin & _ & _ & ->)].
  { by apply dedup_inv_set_heap. }
  destruct Hinv as [Hlog Hused Hquiz Hthes Hdefs].
  split; unfold processed_words in *; simpl_state; rewrite ?fmap_app; simpl.
  - apply NoDup_app. split; [done|]. split; [|apply NoDup_singleton].
    intros w Hw ->%list_elem_of_singleton. apply Hnin. rewrite Hused.
    by apply elem_of_list_to_set.
  - rewrite list_to_set_app_L, Hused. simpl.
    rewrite (right_id_L ∅ (∪)). apply (comm_L (∪)).
  - apply sublist_snoc_opt; [done|].
    destruct (quiz_record _ _ _) as [qi|] eqn:Hqr; simpl; [right|by left].
    by rewrite (quiz_record_text _ _ _ _ Hqr).
  - apply sublist_snoc_opt; [done|]. case_bool_decide; auto.
  - apply sublist_snoc_opt; [done|]. case_bool_decide; auto.
Qed.

Lemma dedup_inv_main net W cw ts s :
  dedup_inv s → dedup_inv (main_loop net W cw ts s).
Proof.
  apply main_loop_rule. intros topic s' _. apply process_topic_rule.
  - intros ???. by apply dedup_inv_set_heap.
  - intros c c'. apply dedup_inv_round.
Qed.

Lemma dedup_inv_expand net W literal ts : dedup_inv (expand net W literal ts).
Proof.
  rewrite expand_eq. apply dedup_inv_main.
  destruct (load_candidate_words_eq literal ∅ empty_state) as [h ->].
  apply dedup_inv_set_heap, dedup_inv_empty.
Qed.

(** C1.  Global deduplication.  On every network, target size and
    configuration: no word is processed twice, the seen set of the finished
    run is exactly the set of processed words, and no two quiz records, no
    two thesaurus records and no two definition records describe the same
    word, across all topics.  At each round of a topic's loop the popped
    word is either already seen, and then the round only pops it (no lookup,
    no log line, no record, the seen set unchanged), or it is new, and then
    it is the one word that enters the seen set and the log. *)
Theorem global_deduplication (net : network) (W : Z)
    (literal : list (string * list string)) (ts : list string) :
  let s := expand net W literal ts in
  NoDup (processed_words s)
  ∧ used_words s = list_to_set (processed_words s)
  ∧ NoDup (Question_Text <$> quiz_items s)
  ∧ NoDup (th_Word <$> thesaurus_items s)
  ∧ NoDup (df_Word <$> definitions_items s)
  ∧ ∀ topic c c',
      queue_allocated c → iteration net W topic c = Some c' →
      ∃ candidate rest,
        deref (globals c) (queue c) = candidate :: rest
        ∧ ((candidate ∈ used_words (globals c)) →
           c' = LoopState (queue c) (topic_used_words c)
                          (store (queue c) rest (globals c)))
        ∧ ((candidate ∉ used_words (globals c)) →
           used_words (globals c') = {[candidate]} ∪ used_words (globals c)
           ∧ processing_log (globals c')
             = processing_log (globals c) ++ [(candidate, topic)]).
Proof.
  intros s. destruct (dedup_inv_expand net W literal ts) as [Hlog Hused Hq Ht Hd].
  fold s in Hlog, Hused, Hq, Ht, Hd.
  split; [done|]. split; [done|].
  split. { eapply sublist_NoDup; [|exact Hq]. by apply NoDup_fmap_2; [apply _|]. }
  split. { by eapply sublist_NoDup. }
  split. { by eapply sublist_NoDup. }
  intros topic c c' Hqa (candidate & rest & Hl & _ & _ & _ & Hcases)%iteration_spec;
    [|done].
  cbv zeta in Hcases. exists candidate, rest.
  split. { unfold deref. by rewrite (lookup_total_correct _ _ _ Hl). }
  destruct Hcases as [[Hin ->] | (Hnin & _ & _ & ->)].
  - split; [done|]. intros Hnin. by destruct Hnin.
  - split; [intros Hin; by destruct Hnin|]. intros _. by simpl_state.
Qed.

(** ** The per-topic budget *)

Lemma processed_under_snoc t s candidate topic (s' : state) :
  processing_log s' = processing_log s ++ [(candidate, topic)] →
  processed_under t s'
  = (processed_under t s + if bool_decide (topic = t) then 1 else 0)%nat.
Proof.
  intros Hlog. unfold processed_under. rewrite Hlog, filter_app, length_app.
  f_equal. rewrite filter_cons, filter_nil. simpl.
  destruct (decide (topic = t)); case_bool_decide; done.
Qed.

Lemma quota_inv_round net W topic s c c' :
  queue_allocated c → quota_inv W topic s c →
  iteration net W topic c = Some c' → quota_inv W topic s c'.
Proof.
  intros Hq [Hothers Hcount Hnn Hbound]
    (candidate & rest & _ & Hlt & _ & _ & Hcases)%iteration_spec; [|done].
  cbv zeta in Hcases.
  destruct Hcases as [[_ ->] | (_ & _ & Hn & Hg)].
  { by split. }
  assert (processing_log (globals c')
          = processing_log (globals c) ++ [(candidate, topic)]) as Hlog
    by by rewrite Hg.
  split.
  - intros t Hne. rewrite (processed_under_snoc _ _ _ _ _ Hlog).
    rewrite bool_decide_false by done. rewrite Nat.add_0_r. by apply Hothers.
  - rewrite (processed_under_snoc _ _ _ _ _ Hlog).
    rewrite bool_decide_true by done. lia.
  - lia.
  - right. rewrite Hn. lia.
Qed.

Lemma process_topic_count net W cw topic s :
  (∀ t, t ≠ topic →
        processed_under t (process_topic net W cw topic s) = processed_under t s)
  ∧ ∃ n : Z,
      Z.of_nat (processed_under topic (process_topic net W cw topic s))
      = Z.of_nat (processed_under topic s) + n
      ∧ 0 ≤ n ∧ (n = 0 ∨ (n - 1) * 5 < W).
Proof.
  destruct (process_topic_eq net W cw topic s) as (s1 & q & Hq & [h ->] & ->).
  destruct (topic_loop_rule net W topic
              (λ c, queue_allocated c ∧ quota_inv W topic s c))
    with (c := LoopState q 0 (set_heap h s)) as [[_ [Ho Hc Hn Hb]] _].
  - intros c c' [Hqa Hinv] Hit. split.
    + by eapply iteration_queue_allocated.
    + by eapply quota_inv_round.
  - split; [exact Hq|]. split; unfold processed_under; simpl;
      first [done | lia | by left].
  - split; [exact Ho|]. eauto.
Qed.

Lemma main_loop_count net W cw ts s t :
  NoDup ts →
  (t ∉ ts → processed_under t (main_loop net W cw ts s) = processed_under t s)
  ∧ (t ∈ ts →
     ∃ n : Z,
       Z.of_nat (processed_under t (main_loop net W cw ts s))
       = Z.of_nat (processed_under t s) + n
       ∧ 0 ≤ n ∧ (n = 0 ∨ (n - 1) * 5 < W)).
Proof.
  unfold main_loop. revert s.
  induction ts as [|t0 ts IH]; intros s Hnd; simpl.
  - split; [done|]. by intros ?%elem_of_nil.
  - apply NoDup_cons in Hnd as [Hnin Hnd].
    destruct (IH (process_topic net W cw t0 s) Hnd) as [IHout IHin].
    destruct (process_topic_count net W cw t0 s) as [Hothers (n & Hn & Hnn & Hb)].
    split.
    + intros Hout. apply not_elem_of_cons in Hout as [Hne Hout].
      rewrite IHout by done. by apply Hothers.
    + intros Hin. destruct (decide (t = t0)) as [->|Hne].
      * rewrite IHout by done. eauto.
      * apply elem_of_cons in Hin as [?|Hin]; [done|].
        destruct (IHin Hin) as (m & Hm & ? & ?). exists m.
        rewrite Hm, Hothers by done. done.
Qed.

(** The bound for any target size [W] and any duplicate-free list of
    topics: the last word processed under a topic was accepted while the
    counter was below [W / 5]. *)
Lemma expand_count net W literal ts t :
  NoDup ts →
  let k := Z.of_nat (processed_under t (expand net W literal ts)) in
  k = 0 ∨ (k - 1) * 5 < W.
Proof.
  intros Hnd. rewrite expand_eq.
  destruct (load_candidate_words_eq literal ∅ empty_state) as [h ->].
  destruct (main_loop_count net W (load_candidate_words literal ∅ empty_state).1
              ts (set_heap h empty_state) t Hnd) as [Hout Hin].
  destruct (decide (t ∈ ts)) as [Ht|Ht].
  - destruct (Hin Ht) as (n & Hn & Hnn & Hb). simpl. rewrite Hn.
    unfold processed_under; simpl. destruct Hb as [->|Hb]; [by left|right; lia].
  - left. simpl. by rewrite (Hout Ht).
Qed.

Lemma topics_NoDup : NoDup topics.
Proof. apply (bool_decide_unpack (NoDup topics)). by vm_compute. Qed.

(** C2.  Budget respect.  On every network and for every topic, the number
    of words processed under the topic in the script's run is at most
    [WORD_COUNT / 5], the floor of the target size over the number of
    topics.  A round that pops an already seen word leaves the counter and
    the log as they are; and once the counter has reached the quota the
    loop condition fails, whatever the queue holds. *)
Theorem budget_respect (net : network) (topic : string) :
  Z.of_nat (processed_under topic (engbot net))
    ≤ WORD_COUNT `div` Z.of_nat (length topics)
  ∧ (∀ c c' candidate rest,
       queue_allocated c →
       deref (globals c) (queue c) = candidate :: rest →
       candidate ∈ used_words (globals c) →
       iteration net WORD_COUNT topic c = Some c' →
       topic_used_words c' = topic_used_words c
       ∧ processing_log (globals c') = processing_log (globals c))
  ∧ (∀ c, WORD_COUNT `div` Z.of_nat (length topics) ≤ topic_used_words c →
          iteration net WORD_COUNT topic c = None).
Proof.
  split; [|split].
  - rewrite engbot_expand.
    pose proof (expand_count net WORD_COUNT candidate_words_literal topics topic
                  topics_NoDup) as Hk.
    cbv zeta in Hk. change (WORD_COUNT `div` Z.of_nat (length topics)) with 2000.
    set (k := Z.of_nat _) in *. clearbody k. unfold WORD_COUNT in Hk. lia.
  - intros c c' candidate rest Hq Hd Hin
      (cand' & rest' & Hl & _ & _ & _ & Hcases)%iteration_spec; [|done].
    cbv zeta in Hcases. unfold deref in Hd.
    rewrite (lookup_total_correct _ _ _ Hl) in Hd. simplify_eq.
    destruct Hcases as [[_ ->] | (Hnin & _)]; [done|]. by destruct Hnin.
  - intros c Hge. change (WORD_COUNT `div` Z.of_nat (length topics)) with 2000 in Hge.
    unfold iteration, lt_true_div, WORD_COUNT.
    destruct (deref (globals c) (queue c)); [done|].
    rewrite bool_decide_false by lia. done.
Qed.

(** ** Termination of the traversal *)

Lemma process_topic_fuel_mono net W cw fuel fuel' topic s r :
  (fuel ≤ fuel')%nat →
  process_topic_fuel net W cw fuel topic s = Some r →
  process_topic_fuel net W cw fuel' topic s = Some r.
Proof.
  intros Hle. unfold process_topic_fuel.
  destruct (match cw !! topic with Some l => (l, s) | None => alloc [] s end)
    as [seeds s1].
  destruct (alloc (deref s1 seeds) s1) as [q s2].
  destruct (loop_fuel net W topic fuel _) as [c|] eqn:Hc; [|done].
  by rewrite (loop_fuel_mono _ _ _ _ _ _ _ Hle Hc).
Qed.

Lemma process_topic_fuel_complete net W cw topic s :
  ∃ fuel, process_topic_fuel net W cw fuel topic s
          = Some (process_topic net W cw topic s).
Proof.
  unfold process_topic_fuel, process_topic.
  destruct (match cw !! topic with Some l => (l, s) | None => alloc [] s end)
    as [seeds s1].
  destruct (alloc (deref s1 seeds) s1) as [q s2].
  destruct (loop_fuel_complete net W topic (LoopState q 0 s2)) as [fuel Hfuel].
  exists fuel. by rewrite Hfuel.
Qed.

Lemma main_loop_fuel_mono net W cw fuel fuel' ts s r :
  (fuel ≤ fuel')%nat →
  main_loop_fuel net W cw fuel ts s = Some r →
  main_loop_fuel net W cw fuel' ts s = Some r.
Proof.
  intros Hle. revert s. induction ts as [|t ts IH]; intros s; simpl; [done|].
  destruct (process_topic_fuel net W cw fuel t s) as [s'|] eqn:Hs'; [|done].
  rewrite (process_topic_fuel_mono _ _ _ _ _ _ _ _ Hle Hs'). apply IH.
Qed.

Lemma main_loop_fuel_complete net W cw ts s :
  ∃ fuel, main_loop_fuel net W cw fuel ts s = Some (main_loop net W cw ts s).
Proof.
  unfold main_loop. revert s. induction ts as [|t ts IH]; intros s; simpl.
  - by exists O.
  - destruct (process_topic_fuel_complete net W cw t s) as [f1 Hf1].
    destruct (IH (process_topic net W cw t s)) as [f2 Hf2].
    exists (f1 `max` f2)%nat.
    rewrite (process_topic_fuel_mono _ _ _ f1 _ _ _ _ (Nat.le_max_l _ _) Hf1).
    by apply (main_loop_fuel_mono _ _ _ f2 _ _ _ _ (Nat.le_max_r _ _)).
Qed.

Lemma process_topic_fuel_sound net W cw fuel topic s r :
  process_topic_fuel net W cw fuel topic s = Some r →
  process_topic net W cw topic s = r.
Proof.
  unfold process_topic_fuel, process_topic.
  destruct (match cw !! topic with Some l => (l, s) | None => alloc [] s end)
    as [seeds s1].
  destruct (alloc (deref s1 seeds) s1) as [q s2].
  destruct (loop_fuel net W topic fuel _) as [c|] eqn:Hc; [|done].
  intros [= <-]. by rewrite (loop_fuel_sound _ _ _ _ _ _ Hc).
Qed.

Lemma main_loop_fuel_sound net W cw fuel ts s r :
  main_loop_fuel net W cw fuel ts s = Some r → main_loop net W cw ts s = r.
Proof.
  unfold main_loop. revert s. induction ts as [|t ts IH]; intros s; simpl.
  - by intros [= <-].
  - destruct (process_topic_fuel net W cw fuel t s) as [s'|] eqn:Hs'; [|done].
    rewrite (process_topic_fuel_sound _ _ _ _ _ _ _ Hs'). apply IH.
Qed.

(** The guard compares with the quotient of a true division: for a target
    size of 7 the loop accepts a second word, one more than the floor of
    7 / 5.  With the script's 10000 the quotient is the integer 2000. *)
Remark true_division_quota :
  processed_words
    (expand (λ _ _, RequestException) 7 [("T1", ["a"; "b"; "c"])] ["T1"])
  = ["a"; "b"].
Proof.
  pose proof (expand_eq (λ _ _, RequestException) 7
                [("T1", ["a"; "b"; "c"])] ["T1"]) as He.
  pose proof (main_loop_fuel_sound (λ _ _, RequestException) 7
                (load_candidate_words [("T1", ["a"; "b"; "c"])] ∅ empty_state).1
                8 ["T1"]
                (load_candidate_words [("T1", ["a"; "b"; "c"])] ∅ empty_state).2)
    as Hs.
  rewrite He.
  destruct (main_loop_fuel _ _ _ _ _ _) as [r|] eqn:Hr; [|by vm_compute in Hr].
  rewrite (Hs r eq_refl).
  assert (processed_words <$> Some r = Some ["a"; "b"]) as H
    by (rewrite <- Hr; by vm_compute).
  clear He Hs Hr. cbn [fmap option_fmap option_map] in H. by injection H.
Qed.

(** C8.  Termination.  On every network (every lookup returns finite
    lists), every target size, configuration and start state, the traversal
    runs to its end: some bound on the rounds of each [while] loop lets the
    bounded traversal finish, with the result of [main_loop].  The reason:
    the relation "one round later" is well founded
    for every topic, since a round pops one word and either appends nothing
    and keeps the counter, or happens below the quota and moves the counter
    up by one. *)
Theorem traversal_terminates (net : network) (W : Z) (cw : gmap string loc)
    (ts : list string) (s : state) :
  (∃ fuel, main_loop_fuel net W cw fuel ts s = Some (main_loop net W cw ts s))
  ∧ (∀ topic, well_founded (round net W topic))
  ∧ (∀ topic c c',
       queue_allocated c → iteration net W topic c = Some c' →
       ∃ candidate rest,
         deref (globals c) (queue c) = candidate :: rest
         ∧ ((topic_used_words c' = topic_used_words c
             ∧ deref (globals c') (queue c') = rest)
            ∨ (topic_used_words c * 5 < W
               ∧ topic_used_words c' = topic_used_words c + 1
               ∧ ∃ new_related,
                   deref (globals c') (queue c') = rest ++ new_related))).
Proof.
  split; [apply main_loop_fuel_complete|]. split; [intros; apply round_wf|].
  intros topic c c' Hq
    (candidate & rest & Hl & Hlt & Hq' & _ & Hcases)%iteration_spec; [|done].
  cbv zeta in Hcases. exists candidate, rest.
  split. { unfold deref. by rewrite (lookup_total_correct _ _ _ Hl). }
  rewrite Hq'. destruct Hcases as [[_ ->] | (_ & _ & Hn & ->)].
  - left. split; [done|]. simpl. by rewrite deref_store.
  - right. split; [done|]. split; [done|].
    eexists. unfold deref; simpl_state.
    erewrite lookup_total_correct; [|apply heap_after_queue].
    + by rewrite lookup_total_insert_eq.
    + apply elem_of_dom. rewrite lookup_insert_eq. eauto.
Qed.

(** ** Breadth-first order *)

(** A round on an unseen candidate, read forwards. *)
Lemma iteration_processed net W topic c candidate rest :
  heap (globals c) !! queue c = Some (candidate :: rest) →
  candidate ∉ used_words (globals c) →
  topic_used_words c * 5 < W →
  ∃ c',
    iteration net W topic c = Some c'
    ∧ queue c' = queue c
    ∧ topic_used_words c' = topic_used_words c + 1
    ∧ heap (globals c') !! queue c
      = Some (rest ++ new_related_of net candidate (globals c))
    ∧ used_words (globals c') = {[candidate]} ∪ used_words (globals c)
    ∧ processing_log (globals c')
      = processing_log (globals c) ++ [(candidate, topic)].
Proof.
  intros Hl Hnin Hlt.
  assert (queue_allocated c) as Hq by (apply elem_of_dom; eauto).
  destruct (iteration net W topic c) as [c'|] eqn:Hit.
  - exists c'. split; [done|].
    apply iteration_spec in Hit as (cand' & rest' & Hl' & _ & Hq' & _ & Hcases);
      [|done].
    cbv zeta in Hcases. rewrite Hl in Hl'. simplify_eq.
    destruct Hcases as [[Hin _] | (_ & _ & Hn & ->)]; [done|].
    split; [done|]. split; [done|]. simpl_state.
    split; [|done].
    rewrite heap_after_queue by (apply elem_of_dom; rewrite lookup_insert_eq; eauto).
    by rewrite lookup_total_insert_eq.
  - exfalso. unfold iteration, lt_true_div, deref in Hit.
    rewrite (lookup_total_correct _ _ _ Hl) in Hit.
    rewrite bool_decide_true in Hit by done. simpl in Hit.
    by rewrite bool_decide_false in Hit by done.
Qed.

Lemma iteration_empty net W topic c :
  heap (globals c) !! queue c = Some [] → iteration net W topic c = None.
Proof.
  intros Hl. unfold iteration, deref. by rewrite (lookup_total_correct _ _ _ Hl).
Qed.

Lemma expand_single net W topic seeds :
  ∃ q h,
    h !! q = Some seeds
    ∧ expand net W [(topic, seeds)] [topic]
      = globals (topic_loop net W topic (LoopState q 0 (set_heap h empty_state))).
Proof.
  unfold expand. cbn [load_candidate_words]. rewrite alloc_eq.
  unfold main_loop. cbn [fold_left]. unfold process_topic.
  rewrite lookup_insert_eq. rewrite alloc_eq.
  eexists _, _. split; [|reflexivity].
  unfold deref, store, set_heap. cbn [heap].
  rewrite lookup_total_insert_eq. apply lookup_insert_eq.
Qed.

Lemma not_seen_after (w candidate : string) (used : gset string) :
  w ≠ candidate → w ∉ used → w ∉ ({[candidate]} ∪ used : gset string).
Proof.
  intros Hne Hu [Hin%elem_of_singleton | Hin]%elem_of_union;
    [by apply Hne | by apply Hu].
Qed.

Ltac unseen :=
  repeat match goal with H : used_words _ = _ |- _ => rewrite H; clear H end;
  repeat (apply not_seen_after; [congruence|]); assumption.

(** Four rounds of the loop on a queue [A; B] of unseen words whose lookups
    yield [C], [D], nothing and nothing. *)
Lemma topic_loop_four net W topic A B C D c0 :
  NoDup [A; B; C; D] →
  3 * 5 < W →
  (∀ n used, C ∉ used → (info_at net n used A).1 = [C]) →
  (∀ n used, D ∉ used → (info_at net n used B).1 = [D]) →
  (∀ n used, (info_at net n used C).1 = []) →
  (∀ n used, (info_at net n used D).1 = []) →
  heap (globals c0) !! queue c0 = Some [A; B] →
  topic_used_words c0 = 0 →
  (∀ w, w ∈ [A; B; C; D] → w ∉ used_words (globals c0)) →
  processing_log (globals (topic_loop net W topic c0))
  = processing_log (globals c0)
      ++ [(A, topic); (B, topic); (C, topic); (D, topic)].
Proof.
  intros Hnd HW HA HB HC HD Hl0 Hn0 Hunseen.
  apply NoDup_cons in Hnd as [HAn Hnd]. apply NoDup_cons in Hnd as [HBn Hnd].
  apply NoDup_cons in Hnd as [HCn _].
  assert (A ∉ used_words (globals c0)) as HuA
    by (apply Hunseen; repeat constructor).
  assert (B ∉ used_words (globals c0)) as HuB
    by (apply Hunseen; repeat constructor).
  assert (C ∉ used_words (globals c0)) as HuC
    by (apply Hunseen; repeat constructor).
  assert (D ∉ used_words (globals c0)) as HuD
    by (apply Hunseen; repeat constructor).
  clear Hunseen.
  apply not_elem_of_cons in HAn as [HAB HAn].
  apply not_elem_of_cons in HAn as [HAC HAn].
  apply not_elem_of_cons in HAn as [HAD _].
  apply not_elem_of_cons in HBn as [HBC HBn].
  apply not_elem_of_cons in HBn as [HBD _].
  apply not_elem_of_cons in HCn as [HCD _].
  destruct (iteration_processed net W topic c0 A [B] Hl0)
    as (c1 & Hit1 & Hq1 & Hn1 & Hl1 & Hu1 & Hlog1); [done | lia |].
  assert (new_related_of net A (globals c0) = [C]) as HnA.
  { unfold new_related_of. rewrite HA by unseen.
    rewrite filter_cons_True by unseen. done. }
  rewrite HnA, <- Hq1 in Hl1. simpl in Hl1.
  destruct (iteration_processed net W topic c1 B [C] Hl1)
    as (c2 & Hit2 & Hq2 & Hn2 & Hl2 & Hu2 & Hlog2);
    [unseen | lia |].
  assert (new_related_of net B (globals c1) = [D]) as HnB.
  { unfold new_related_of. rewrite HB by unseen.
    rewrite filter_cons_True by unseen. done. }
  rewrite HnB, <- Hq2 in Hl2. simpl in Hl2.
  destruct (iteration_processed net W topic c2 C [D] Hl2)
    as (c3 & Hit3 & Hq3 & Hn3 & Hl3 & Hu3 & Hlog3);
    [unseen | lia |].
  assert (new_related_of net C (globals c2) = []) as HnC.
  { unfold new_related_of. by rewrite HC. }
  rewrite HnC, <- Hq3 in Hl3. simpl in Hl3.
  destruct (iteration_processed net W topic c3 D [] Hl3)
    as (c4 & Hit4 & Hq4 & Hn4 & Hl4 & Hu4 & Hlog4);
    [unseen | lia |].
  assert (new_related_of net D (globals c3) = []) as HnD.
  { unfold new_related_of. by rewrite HD. }
  rewrite HnD, <- Hq4 in Hl4. simpl in Hl4.
  pose proof (iteration_empty net W topic c4 Hl4) as Hit5.
  rewrite (topic_loop_step _ _ _ c0), Hit1, (topic_loop_step _ _ _ c1), Hit2,
    (topic_loop_step _ _ _ c2), Hit3, (topic_loop_step _ _ _ c3), Hit4,
    (topic_loop_step _ _ _ c4), Hit5.
  rewrite Hlog4, Hlog3, Hlog2, Hlog1. by rewrite <- !app_assoc.
Qed.

(** C3.  Breadth-first order.  A round pops the front of the queue, and a
    processed candidate's new related words are appended at the back.  For
    one topic seeded with [A; B], four distinct words [A], [B], [C], [D],
    a network on which the primary lookup of [A] yields [C], that of [B]
    yields [D] and those of [C] and [D] yield nothing, and a quota of at
    least four, the words are processed in the order [A], [B], [C], [D]. *)
Theorem bfs_ordering (net : network) (W : Z) (topic A B C D : string) :
  NoDup [A; B; C; D] →
  3 * 5 < W →
  (∀ n used, C ∉ used → (info_at net n used A).1 = [C]) →
  (∀ n used, D ∉ used → (info_at net n used B).1 = [D]) →
  (∀ n used, (info_at net n used C).1 = []) →
  (∀ n used, (info_at net n used D).1 = []) →
  (∀ c candidate rest,
     heap (globals c) !! queue c = Some (candidate :: rest) →
     candidate ∉ used_words (globals c) →
     topic_used_words c * 5 < W →
     ∃ c', iteration net W topic c = Some c'
           ∧ heap (globals c') !! queue c'
             = Some (rest ++ new_related_of net candidate (globals c)))
  ∧ processed_words (expand net W [(topic, [A; B])] [topic]) = [A; B; C; D].
Proof.
  intros Hnd HW HA HB HC HD. split.
  { intros c candidate rest Hl Hnin Hlt.
    destruct (iteration_processed net W topic c candidate rest Hl Hnin Hlt)
      as (c' & Hit & Hq & _ & Hh & _).
    exists c'. by rewrite Hq. }
  destruct (expand_single net W topic [A; B]) as (q & h & Hl0 & ->).
  unfold processed_words.
  by rewrite (topic_loop_four net W topic A B C D).
Qed.

#[export] Instance info_url_inj : Inj (=) (=) info_url.
Proof.
  intros w1 w2 H. unfold info_url in H. apply String.app_inj in H.
  apply (f_equal list_ascii_of_string) in H.
  rewrite !list_ascii_of_string_app in H.
  apply list_ascii_of_string_inj.
  apply app_inj_1 in H as [H _]; [done|].
  apply (f_equal length) in H. rewrite !length_app in H. lia.
Qed.

Lemma bfs_net_other n used w :
  w ≠ "a" → w ≠ "b" → (info_at bfs_net n used w).1 = [].
Proof.
  intros Ha Hb. unfold info_at, scrape_cambridge_info, requests_get, bfs_net.
  simpl_state. cbn [serve].
  rewrite !bool_decide_false; [done| |]; by intros ?%(inj info_url).
Qed.

(** ** The records *)

Lemma list_of_five (o : list string) :
  length o = 5%nat →
  [o !!! 0%nat; o !!! 1%nat; o !!! 2%nat; o !!! 3%nat; o !!! 4%nat] = o.
Proof.
  intros Hlen. do 5 (destruct o as [|? o]; [done|]). by destruct o.
Qed.

(** C5.  Quiz record structure.  Called on a list object holding a
    non-empty list [related], the builder returns a record and leaves one
    new list object, [options], which holds the first five entries of
    [related] right-padded with empty strings: a list of length five, so
    every index from 0 to 4 is in range, and the five option fields of the
    record are its five entries.  The first option is [related[0]], the
    correct-answer field is "1", the type is "Multiple Choice", the time
    "30", there is no image, and the explanation names [related[0]], the
    word and the topic. *)
Theorem quiz_record_structure (topic candidate_word : string)
    (related_synonyms : loc) (s : state) (related : list string) :
  heap s !! related_synonyms = Some related →
  related ≠ [] →
  ∃ qi correct options padded,
    create_quiz_item topic candidate_word related_synonyms s
    = (Some qi, store options padded s)
    ∧ (options ∉ dom (heap s))
    ∧ heap (create_quiz_item topic candidate_word related_synonyms s).2
        !! options = Some padded
    ∧ padded = take 5 related ++ replicate (5 - length (take 5 related)) ""
    ∧ length padded = 5%nat
    ∧ padded !! 0%nat = Some (Option_1 qi)
    ∧ padded !! 1%nat = Some (Option_2 qi)
    ∧ padded !! 2%nat = Some (Option_3 qi)
    ∧ padded !! 3%nat = Some (Option_4 qi)
    ∧ padded !! 4%nat = Some (Option_5 qi)
    ∧ related !! 0%nat = Some correct
    ∧ Option_1 qi = correct
    ∧ [Option_1 qi; Option_2 qi; Option_3 qi; Option_4 qi; Option_5 qi]
      = take 5 related ++ replicate (5 - length (take 5 related)) ""
    ∧ Correct_Answer qi = "1"
    ∧ Question_Type qi = "Multiple Choice"
    ∧ Time_in_seconds qi = "30"
    ∧ Image_Link qi = ""
    ∧ Question_Text qi
      = "Which of the following is a synonym for '" +:+ candidate_word +:+ "'?"
    ∧ Answer_explanation qi
      = "The word '" +:+ correct +:+ "' is a synonym for '" +:+ candidate_word
          +:+ "' (Topic: " +:+ topic +:+ ").".
Proof.
  intros Hr Hne. rewrite (create_quiz_item_spec _ _ _ _ _ Hr).
  destruct related as [|correct rest]; [done|].
  set (related := correct :: rest) in *.
  pose proof (padded_options_length related) as Hlen.
  eexists _, correct, (fresh (dom (heap s))), (padded_options related).
  split; [reflexivity|]. split; [apply is_fresh|].
  cbn [Option_1 Option_2 Option_3 Option_4 Option_5 Correct_Answer Question_Type
       Time_in_seconds Image_Link Question_Text Answer_explanation snd].
  split.
  { unfold heap_with_options. cbn [related heap set_heap]. apply lookup_insert_eq. }
  split; [done|]. split; [done|].
  do 5 (split; [apply list_lookup_lookup_total_lt; rewrite Hlen; lia|]).
  split; [done|]. split; [done|].
  split; [apply list_of_five, Hlen|]. done.
Qed.

Lemma quiz_record_structure_witness :
  ∃ qi correct options padded,
    create_quiz_item "T1" "a" 1%positive two_related
    = (Some qi, store options padded two_related)
    ∧ (options ∉ dom (heap two_related))
    ∧ heap (create_quiz_item "T1" "a" 1%positive two_related).2
        !! options = Some padded
    ∧ padded
      = take 5 ["c"; "d"] ++ replicate (5 - length (take 5 ["c"; "d"])) ""
    ∧ length padded = 5%nat
    ∧ padded !! 0%nat = Some (Option_1 qi)
    ∧ padded !! 1%nat = Some (Option_2 qi)
    ∧ padded !! 2%nat = Some (Option_3 qi)
    ∧ padded !! 3%nat = Some (Option_4 qi)
    ∧ padded !! 4%nat = Some (Option_5 qi)
    ∧ ["c"; "d"] !! 0%nat = Some correct
    ∧ Option_1 qi = correct
    ∧ [Option_1 qi; Option_2 qi; Option_3 qi; Option_4 qi; Option_5 qi]
      = take 5 ["c"; "d"] ++ replicate (5 - length (take 5 ["c"; "d"])) ""
    ∧ Correct_Answer qi = "1"
    ∧ Question_Type qi = "Multiple Choice"
    ∧ Time_in_seconds qi = "30"
    ∧ Image_Link qi = ""
    ∧ Question_Text qi
      = "Which of the following is a synonym for '" +:+ "a" +:+ "'?"
    ∧ Answer_explanation qi
      = "The word '" +:+ correct +:+ "' is a synonym for '" +:+ "a"
          +:+ "' (Topic: " +:+ "T1" +:+ ").".
Proof.
  apply (quiz_record_structure "T1" "a" 1%positive two_related ["c"; "d"]).
  - by vm_compute.
  - done.
Defined.

(** C6.  Record omission and field joining.  In a round that processes a
    candidate, with [new_related] the new related words, [definitions] the
    definitions of the primary lookup and [syns], [ants] the lists of the
    thesaurus lookup: the quiz collection grows by one record when
    [new_related] is non-empty and stays as it is otherwise; the thesaurus
    collection grows by the record joining [syns] and [ants] with ", " when
    one of them is non-empty and stays as it is when both are empty; the
    definitions collection grows by the record joining [definitions] with
    " | " when that list is non-empty and stays as it is otherwise. *)
Theorem record_omission_and_joining (net : network) (W : Z) (topic : string)
    (c c' : loop_state) (candidate : string) (rest : list string) :
  queue_allocated c →
  deref (globals c) (queue c) = candidate :: rest →
  candidate ∉ used_words (globals c) →
  iteration net W topic c = Some c' →
  let s := globals c in
  let s' := globals c' in
  let new_related := new_related_of net candidate s in
  let definitions :=
    (info_at net (requests s) ({[candidate]} ∪ used_words s) candidate).2 in
  let syns := (thesaurus_at net (S (requests s)) candidate).1 in
  let ants := (thesaurus_at net (S (requests s)) candidate).2 in
  (new_related = [] → quiz_items s' = quiz_items s)
  ∧ (new_related ≠ [] →
     ∃ qi, quiz_record topic candidate new_related = Some qi
           ∧ quiz_items s' = quiz_items s ++ [qi])
  ∧ (syns = [] ∧ ants = [] → thesaurus_items s' = thesaurus_items s)
  ∧ (syns ≠ [] ∨ ants ≠ [] →
     thesaurus_items s'
     = thesaurus_items s
         ++ [{| th_Word := candidate; th_Topic := topic;
                th_Synonyms := PyStr.join ", " syns;
                th_Antonyms := PyStr.join ", " ants |}])
  ∧ (definitions = [] → definitions_items s' = definitions_items s)
  ∧ (definitions ≠ [] →
     definitions_items s'
     = definitions_items s
         ++ [{| df_Word := candidate; df_Topic := topic;
                df_Definition := PyStr.join " | " definitions |}])
  ∧ PyStr.join ", " ["big"; "large"; "huge"] = "big, large, huge"
  ∧ PyStr.join " | " ["first"; "second"] = "first | second".
Proof.
  intros Hq Hd Hnin (cand' & rest' & Hl & _ & _ & _ & Hcases)%iteration_spec;
    [|done].
  cbv zeta in Hcases. unfold deref in Hd.
  rewrite (lookup_total_correct _ _ _ Hl) in Hd. simplify_eq.
  destruct Hcases as [[Hin _] | (_ & _ & _ & Hg)]; [done|].
  intros s s' new_related definitions syns ants. subst s'. rewrite Hg.
  simpl_state. fold s. change (new_related_of net candidate _) with new_related.
  fold definitions. fold syns. fold ants.
  split. { intros ->. simpl. by rewrite app_nil_r. }
  split. { intros Hne. destruct new_related as [|x l] eqn:E; [done|].
           eexists. split; reflexivity. }
  split. { intros [-> ->]. rewrite bool_decide_false by (by intros [H|H]).
           by rewrite app_nil_r. }
  split. { intros Hne. by rewrite bool_decide_true. }
  split. { intros ->. rewrite bool_decide_false by (by intros H).
           by rewrite app_nil_r. }
  split. { intros Hne. by rewrite bool_decide_true. }
  split; reflexivity.
Qed.

(** ** Failed lookups *)

Lemma info_fails_empty net word s :
  info_fails (net (requests s) (info_url word)) →
  (scrape_cambridge_info net word s).1 = ([], []).
Proof.
  unfold scrape_cambridge_info, requests_get, info_fails.
  destruct (net (requests s) (info_url word)) as [|code page]; [done|].
  intros [Hcode | [Hrel Hdef]].
  - by rewrite bool_decide_true.
  - case_bool_decide; [done|]. by rewrite Hrel, Hdef.
Qed.

Lemma thesaurus_fails_empty net word s :
  thesaurus_fails (net (requests s) (thesaurus_url word)) →
  (scrape_cambridge_thesaurus net word s).1 = ([], []).
Proof.
  unfold scrape_cambridge_thesaurus, requests_get, thesaurus_fails.
  destruct (net (requests s) (thesaurus_url word)) as [|code page]; [done|].
  intros [Hcode | [Hsyn Hant]].
  - by rewrite bool_decide_true.
  - case_bool_decide; [done|]. by rewrite Hsyn, Hant.
Qed.

Lemma info_at_fails net n used word :
  info_fails (net n (info_url word)) → info_at net n used word = ([], []).
Proof. intros H. unfold info_at. by apply info_fails_empty. Qed.

Lemma thesaurus_at_fails net n word :
  thesaurus_fails (net n (thesaurus_url word)) → thesaurus_at net n word = ([], []).
Proof. intros H. unfold thesaurus_at. by apply thesaurus_fails_empty. Qed.

(** A round on an unseen candidate below the quota happens, and its
    outcome is the one [iteration_spec] describes. *)
Lemma iteration_processed_globals net W topic c candidate rest :
  heap (globals c) !! queue c = Some (candidate :: rest) →
  candidate ∉ used_words (globals c) →
  topic_used_words c * 5 < W →
  ∃ c',
    iteration net W topic c = Some c'
    ∧ topic_used_words c' = topic_used_words c + 1
    ∧ used_words (globals c') = {[candidate]} ∪ used_words (globals c)
    ∧ processing_log (globals c')
      = processing_log (globals c) ++ [(candidate, topic)]
    ∧ quiz_items (globals c')
      = quiz_items (globals c)
          ++ option_list (quiz_record topic candidate
                            (new_related_of net candidate (globals c)))
    ∧ thesaurus_items (globals c')
      = thesaurus_items (globals c)
          ++ (let thes := thesaurus_at net (S (requests (globals c))) candidate in
              if bool_decide (thes.1 ≠ [] ∨ thes.2 ≠ [])
              then [thesaurus_entry candidate topic thes.1 thes.2] else [])
    ∧ definitions_items (globals c')
      = definitions_items (globals c)
          ++ (let info := info_at net (requests (globals c))
                            ({[candidate]} ∪ used_words (globals c)) candidate in
              if bool_decide (info.2 ≠ [])
              then [definitions_entry candidate topic info.2] else []).
Proof.
  intros Hl Hnin Hlt.
  destruct (iteration_processed net W topic c candidate rest Hl Hnin Hlt)
    as (c' & Hit & _ & Hn & _ & Hu & Hlog).
  exists c'. split; [done|]. split; [done|]. split; [done|]. split; [done|].
  apply iteration_spec in Hit as (cand' & rest' & Hl' & _ & _ & _ & Hcases);
    [|apply elem_of_dom; eauto].
  cbv zeta in Hcases. rewrite Hl in Hl'. simplify_eq.
  destruct Hcases as [[Hin _] | (_ & _ & _ & ->)]; [done|]. by simpl_state.
Qed.

(** C4.  Soft-fail provider.  A primary lookup whose request raises, returns
    a status other than 200, or returns a page without the related-words
    container and without definition blocks, returns two empty lists; the
    same holds for the thesaurus lookup and its two sections; and each
    section that is missing from a page gives an empty list of its own.  A round whose
    two lookups fail still happens: the word enters the seen set and the
    log, the topic counter goes up by one, and none of the three collections
    grows.  When only the thesaurus lookup fails, the quiz record and the
    definition record of the word are appended as usual. *)
Theorem soft_fail_provider (net : network) (W : Z) (topic : string) :
  (∀ word s,
     info_fails (net (requests s) (info_url word)) →
     (scrape_cambridge_info net word s).1 = ([], []))
  ∧ (∀ word s,
       thesaurus_fails (net (requests s) (thesaurus_url word)) →
       (scrape_cambridge_thesaurus net word s).1 = ([], []))
  ∧ (∀ word s code page,
       net (requests s) (info_url word) = Response code page →
       (daccord_lb page = None → (scrape_cambridge_info net word s).1.1 = [])
       ∧ (def_elements page = [] → (scrape_cambridge_info net word s).1.2 = []))
  ∧ (∀ word s code page,
       net (requests s) (thesaurus_url word) = Response code page →
       (syn_container page = None →
        (scrape_cambridge_thesaurus net word s).1.1 = [])
       ∧ (ant_container page = None →
          (scrape_cambridge_thesaurus net word s).1.2 = []))
  ∧ (∀ c candidate rest,
       heap (globals c) !! queue c = Some (candidate :: rest) →
       candidate ∉ used_words (globals c) →
       topic_used_words c * 5 < W →
       info_fails (net (requests (globals c)) (info_url candidate)) →
       thesaurus_fails (net (S (requests (globals c))) (thesaurus_url candidate)) →
       ∃ c',
         iteration net W topic c = Some c'
         ∧ used_words (globals c') = {[candidate]} ∪ used_words (globals c)
         ∧ topic_used_words c' = topic_used_words c + 1
         ∧ processing_log (globals c')
           = processing_log (globals c) ++ [(candidate, topic)]
         ∧ quiz_items (globals c') = quiz_items (globals c)
         ∧ thesaurus_items (globals c') = thesaurus_items (globals c)
         ∧ definitions_items (globals c') = definitions_items (globals c))
  ∧ (∀ c candidate rest,
       heap (globals c) !! queue c = Some (candidate :: rest) →
       candidate ∉ used_words (globals c) →
       topic_used_words c * 5 < W →
       thesaurus_fails (net (S (requests (globals c))) (thesaurus_url candidate)) →
       ∃ c',
         iteration net W topic c = Some c'
         ∧ quiz_items (globals c')
           = quiz_items (globals c)
               ++ option_list (quiz_record topic candidate
                                 (new_related_of net candidate (globals c)))
         ∧ thesaurus_items (globals c') = thesaurus_items (globals c)
         ∧ definitions_items (globals c')
           = definitions_items (globals c)
               ++ (let definitions :=
                     (info_at net (requests (globals c))
                        ({[candidate]} ∪ used_words (globals c)) candidate).2 in
                   if bool_decide (definitions ≠ [])
                   then [definitions_entry candidate topic definitions] else [])).
Proof.
  split; [intros; by apply info_fails_empty|].
  split; [intros; by apply thesaurus_fails_empty|].
  split.
  { intros word s code page Hnet.
    unfold scrape_cambridge_info, requests_get. rewrite Hnet.
    case_bool_decide; [done|]. split; intros Hnone; by rewrite Hnone. }
  split.
  { intros word s code page Hnet.
    unfold scrape_cambridge_thesaurus, requests_get. rewrite Hnet.
    case_bool_decide; [done|]. split; intros Hnone; by rewrite Hnone. }
  split.
  - intros c candidate rest Hl Hnin Hlt Hinfo Hthes.
    destruct (iteration_processed_globals net W topic c candidate rest Hl Hnin Hlt)
      as (c' & Hit & Hn & Hu & Hlog & Hquiz & Ht & Hd).
    exists c'. split; [done|]. split; [done|]. split; [done|]. split; [done|].
    rewrite Hquiz, Ht, Hd. unfold new_related_of.
    rewrite (info_at_fails _ _ _ _ Hinfo), (thesaurus_at_fails _ _ _ Hthes).
    simpl. by rewrite !app_nil_r.
  - intros c candidate rest Hl Hnin Hlt Hthes.
    destruct (iteration_processed_globals net W topic c candidate rest Hl Hnin Hlt)
      as (c' & Hit & Hn & Hu & Hlog & Hquiz & Ht & Hd).
    exists c'. split; [done|]. split; [done|]. split; [|done].
    rewrite Ht, (thesaurus_at_fails _ _ _ Hthes). simpl.
    by rewrite app_nil_r.
Qed.

(** ** Self-loop suppression *)

(** An entry of the related list: a title of the page, stripped and
    lower-cased, that is not empty, not seen, and not the lower-cased
    word. *)
Lemma scrape_cambridge_info_related net word s e :
  e ∈ (scrape_cambridge_info net word s).1.1 →
  e ≠ "" ∧ (e ∉ used_words s) ∧ e ≠ lower word
  ∧ ∃ page lis t,
      net (requests s) (info_url word) = Response 200 page
      ∧ daccord_lb page = Some lis
      ∧ t ∈ titles_of lis
      ∧ e = lower (strip t).
Proof.
  unfold scrape_cambridge_info, requests_get.
  destruct (net (requests s) (info_url word)) as [|code page];
    [by intros ?%elem_of_nil|].
  case_bool_decide as Hcode; [by intros ?%elem_of_nil|]. simpl.
  destruct (daccord_lb page) as [lis|] eqn:Hlis; [|by intros ?%elem_of_nil].
  intros (?&?&?&t&sp&Ht&->)%related_loop_elem.
  repeat split; try done. exists page, lis, t.
  split; [by rewrite Hcode|]. split; [done|]. split; [|done].
  unfold titles_of. apply list_elem_of_omap. by exists (Some (Anchor (Some t) sp)).
Qed.

(** ** The configuration is left alone *)

Lemma frame_inv_round net W topic h0 c c' :
  frame_inv h0 c → iteration net W topic c = Some c' → frame_inv h0 c'.
Proof.
  intros [Hnew Hq Hkept]
    (candidate & rest & Hl & _ & Hq' & Hdom & Hcases)%iteration_spec; [|done].
  cbv zeta in Hcases.
  assert (∀ l, l ∈ dom h0 → l ≠ queue c) as Hne by (by intros l Hl0 ->).
  assert (∀ l, l ∈ dom h0 → l ∈ dom (heap (globals c))) as Hsub.
  { intros l Hl0. apply elem_of_dom. rewrite (Hkept l Hl0). by apply elem_of_dom. }
  split.
  - by rewrite Hq'.
  - unfold queue_allocated. by rewrite Hq'.
  - intros l Hl0. rewrite <- (Hkept l Hl0).
    destruct Hcases as [[_ ->] | (_ & _ & _ & ->)]; simpl_state.
    + apply lookup_insert_ne. intros Heq. by apply (Hne l).
    + rewrite heap_after_lookup_ne; [| |by apply Hne].
      * apply lookup_insert_ne. intros Heq. by apply (Hne l).
      * rewrite dom_insert_L. apply elem_of_union_r. by apply Hsub.
Qed.

(** The start of a topic: the queue is a new list object with the contents
    of the seed list, and every list object that existed is untouched. *)
Lemma process_topic_start net W cw topic s :
  ∃ q s1,
    process_topic net W cw topic s
    = globals (topic_loop net W topic (LoopState q 0 s1))
    ∧ frame_inv (heap s) (LoopState q 0 s1)
    ∧ deref s1 q = match cw !! topic with Some l => deref s l | None => [] end.
Proof.
  unfold process_topic.
  destruct (cw !! topic) as [l|]; rewrite !alloc_eq; cbv beta iota zeta.
  - eexists _, _. split; [reflexivity|]. split; [split|].
    + cbn [queue]. apply is_fresh.
    + unfold queue_allocated. simpl_state. apply elem_of_dom.
      rewrite lookup_insert_eq. eauto.
    + intros l' Hl'. simpl_state. apply lookup_insert_ne.
      by apply fresh_heap_ne.
    + by rewrite deref_store.
  - eexists _, _. split; [reflexivity|]. split; [split|].
    + cbn [queue]. simpl_state. intros Hin.
      apply (is_fresh (dom (<[fresh (dom (heap s)) := []]> (heap s)))).
      eapply elem_of_weaken; [exact Hin | apply dom_insert_subseteq].
    + unfold queue_allocated. simpl_state. apply elem_of_dom.
      rewrite lookup_insert_eq. eauto.
    + intros l' Hl'. simpl_state. rewrite lookup_insert_ne.
      * apply lookup_insert_ne. by apply fresh_heap_ne.
      * apply fresh_heap_ne.
        eapply elem_of_weaken; [exact Hl' | apply dom_insert_subseteq].
    + rewrite deref_store. unfold deref, store. simpl_state.
      by rewrite lookup_total_insert_eq.
Qed.

Lemma process_topic_frame net W cw topic s l :
  l ∈ dom (heap s) → heap (process_topic net W cw topic s) !! l = heap s !! l.
Proof.
  intros Hl.
  destruct (process_topic_start net W cw topic s) as (q & s1 & -> & Hinv & _).
  destruct (topic_loop_rule net W topic (frame_inv (heap s)))
    with (c := LoopState q 0 s1) as [[_ _ Hkept] _]; [|done|by apply Hkept].
  intros c c'. apply frame_inv_round.
Qed.

Lemma main_loop_frame net W cw ts s l :
  l ∈ dom (heap s) → heap (main_loop net W cw ts s) !! l = heap s !! l.
Proof.
  unfold main_loop. revert s. induction ts as [|t ts IH]; intros s Hl; simpl; [done|].
  rewrite IH.
  - by apply process_topic_frame.
  - apply elem_of_dom. rewrite process_topic_frame by done. by apply elem_of_dom.
Qed.

Lemma load_candidate_words_allocated literal cw s topic l :
  (∀ t l', cw !! t = Some l' → l' ∈ dom (heap s)) →
  (load_candidate_words literal cw s).1 !! topic = Some l →
  l ∈ dom (heap (load_candidate_words literal cw s).2).
Proof.
  revert cw s. induction literal as [|[t seeds] literal IH]; intros cw s Hcw;
    cbn [load_candidate_words].
  - simpl. apply Hcw.
  - rewrite alloc_eq. apply IH. intros t' l' Hl'. unfold store; simpl_state.
    rewrite dom_insert_L.
    destruct (decide (t = t')) as [->|Hne].
    + rewrite lookup_insert_eq in Hl'. simplify_eq. apply elem_of_union_l.
      by apply elem_of_singleton.
    + rewrite lookup_insert_ne in Hl' by done. apply elem_of_union_r. eauto.
Qed.

(** C9.  Configuration frame.  Whatever the network, the target size, the
    configuration literal and the list of topics: every seed list that
    [candidate_words] refers to exists when the traversal starts and holds
    after the traversal what it held before.  A topic's queue is a list
    object of its own, new when the topic starts and holding a copy of the
    seeds, and a round never changes a list object that existed when the
    topic started. *)
Theorem configuration_frame (net : network) (W : Z)
    (literal : list (string * list string)) (ts : list string) :
  let cw := (load_candidate_words literal ∅ empty_state).1 in
  let s0 := (load_candidate_words literal ∅ empty_state).2 in
  (∀ topic l,
     cw !! topic = Some l →
     is_Some (heap s0 !! l)
     ∧ heap (expand net W literal ts) !! l = heap s0 !! l)
  ∧ (∀ topic s,
       ∃ q s1,
         process_topic net W cw topic s
         = globals (topic_loop net W topic (LoopState q 0 s1))
         ∧ (q ∉ dom (heap s))
         ∧ deref s1 q = match cw !! topic with Some l => deref s l | None => [] end
         ∧ ∀ l, l ∈ dom (heap s) →
                heap s1 !! l = heap s !! l
                ∧ heap (process_topic net W cw topic s) !! l = heap s !! l).
Proof.
  intros cw s0. split.
  - intros topic l Hl.
    assert (l ∈ dom (heap s0)) as Hdom.
    { apply (load_candidate_words_allocated literal ∅ empty_state topic l); [|done].
      intros t l'. by rewrite lookup_empty. }
    split; [by apply elem_of_dom|].
    rewrite expand_eq. by apply main_loop_frame.
  - intros topic s.
    destruct (process_topic_start net W cw topic s)
      as (q & s1 & Heq & [Hnew _ Hkept] & Hseeds).
    exists q, s1. split; [done|]. split; [done|]. split; [done|].
    intros l Hl. split; [by apply Hkept|]. by apply process_topic_frame.
Qed.

(** ** No deduplication within one batch of related words *)

Lemma create_quiz_item_frame topic candidate_word related_synonyms s l :
  related_synonyms ∈ dom (heap s) → l ∈ dom (heap s) →
  heap (create_quiz_item topic candidate_word related_synonyms s).2 !! l
  = heap s !! l.
Proof.
  intros [related Hr]%elem_of_dom Hl.
  rewrite (create_quiz_item_spec _ _ _ _ _ Hr). simpl_state.
  by apply heap_with_options_lookup.
Qed.

(** ** Further properties of the lookups *)

Lemma related_loop_filter used word lis :
  related_loop used word lis []
  = filter (λ w, w ≠ "" ∧ (w ∉ used) ∧ w ≠ lower word)
      ((λ t, lower (strip t)) <$> titles_of lis).
Proof.
  unfold titles_of.
  induction lis as [|[[[t|] sp]|] lis IH]; simpl; [done| | |]; try exact IH.
  rewrite filter_cons.
  destruct (decide (lower (strip t) ≠ ""
                    ∧ (lower (strip t) ∉ used)
                    ∧ lower (strip t) ≠ lower word)) as [Hc|Hc].
  - rewrite bool_decide_true by done. by rewrite related_loop_spec, IH.
  - by rewrite bool_decide_false.
Qed.

Lemma definitions_loop_filter def_elems acc :
  definitions_loop def_elems acc = acc ++ filter (λ t, t ≠ "") def_elems.
Proof.
  revert acc. induction def_elems as [|t l IH]; intros acc; simpl.
  - by rewrite app_nil_r.
  - rewrite filter_cons. destruct (decide (t ≠ "")) as [Hn|Hn].
    + rewrite bool_decide_true by done. rewrite IH. by rewrite <- app_assoc.
    + rewrite bool_decide_false by done. apply IH.
Qed.

(** X1.  The related list of the primary lookup.  On a page with status 200
    and a related-words container, the related list is the list of titles
    in page order, each stripped and then lower-cased, from which the empty
    words, the words of [used_words] and the lower-cased queried word are
    dropped; nothing is reordered or merged, and repeats are kept.  In every
    case each returned word is the stripped and lower-cased title of an
    entry of the page, is not empty and is not in [used_words]; and the
    lookup costs one request and leaves the rest of the state as it was. *)
Theorem related_words_of_page (net : network) (word : string) (s : state) :
  (∀ code page lis,
     net (requests s) (info_url word) = Response code page →
     code = 200 → daccord_lb page = Some lis →
     (scrape_cambridge_info net word s).1.1
     = filter (λ w, w ≠ "" ∧ (w ∉ used_words s) ∧ w ≠ lower word)
         ((λ t, lower (strip t)) <$> titles_of lis))
  ∧ (∀ e, e ∈ (scrape_cambridge_info net word s).1.1 →
          e ≠ "" ∧ (e ∉ used_words s)
          ∧ ∃ page lis t,
              net (requests s) (info_url word) = Response 200 page
              ∧ daccord_lb page = Some lis
              ∧ t ∈ titles_of lis
              ∧ e = lower (strip t))
  ∧ (scrape_cambridge_info net word s).2 = set_requests (S (requests s)) s.
Proof.
  split; [|split].
  - intros code page lis Hnet -> Hlis.
    unfold scrape_cambridge_info, requests_get. rewrite Hnet.
    rewrite bool_decide_false by (by intros H). simpl_state.
    rewrite Hlis. apply related_loop_filter.
  - intros e He.
    by pose proof (scrape_cambridge_info_related net word s e He) as (? & ? & _ & ?).
  - by rewrite scrape_cambridge_info_eq.
Qed.

(** X2.  The definitions of the primary lookup.  On a page with status 200
    the definitions are the non-empty definition texts in page order,
    repeats kept, whether or not the page has a related-words container and
    whatever [used_words] holds; on a failed request or another status the
    list is empty.  So no returned definition is empty and there are at most
    as many as definition blocks. *)
Theorem definitions_are_nonempty_texts (net : network) (word : string) (s : state) :
  let definitions := (scrape_cambridge_info net word s).1.2 in
  match net (requests s) (info_url word) with
  | Response 200 page =>
      definitions = filter (λ t, t ≠ "") (def_elements page)
      ∧ (length definitions ≤ length (def_elements page))%nat
  | _ => definitions = []
  end
  ∧ Forall (λ t, t ≠ "") definitions.
Proof.
  cbv zeta. unfold scrape_cambridge_info, requests_get.
  destruct (net (requests s) (info_url word)) as [|code page]; [done|].
  case_bool_decide as Hcode.
  - split; [|done]. destruct code as [|p|p]; try done.
    do 8 (destruct p as [p|p|]; try done).
  - subst code. simpl_state.
    rewrite definitions_loop_filter. simpl.
    split; [split; [done|apply length_filter]|].
    apply Forall_forall. by intros t [Ht _]%list_elem_of_filter.
Qed.

Lemma items_loop_spec items acc :
  ∃ r,
    items_loop items acc = acc ++ r
    ∧ r `sublist_of` filter (λ w, w ≠ "") (lower <$> span_texts items)
    ∧ (NoDup acc → NoDup (acc ++ r))
    ∧ (∀ w, w ∈ filter (λ w, w ≠ "") (lower <$> span_texts items) →
            w ∈ acc ++ r).
Proof.
  unfold span_texts. revert acc.
  induction items as [|[[tit [t|]]|] items IH]; intros acc; simpl.
  - exists []. rewrite app_nil_r. split; [done|]. split; [done|].
    split; [done|]. by intros w ?%elem_of_nil.
  - rewrite filter_cons.
    case_bool_decide as Hc.
    + destruct Hc as [Hne Hnin]. rewrite decide_True by done.
      destruct (IH (acc ++ [lower t])) as (r & Heq & Hsub & Hnd & Hall).
      exists (lower t :: r). rewrite Heq, <- app_assoc. simpl.
      split; [done|]. split; [by apply sublist_skip|]. split.
      * intros Hacc. rewrite cons_middle, (assoc_L (++)). apply Hnd.
        apply NoDup_app. split; [done|]. split; [|apply NoDup_singleton].
        by intros w Hw ->%list_elem_of_singleton.
      * intros w [->|Hw]%elem_of_cons.
        -- apply elem_of_app. right. by left.
        -- rewrite cons_middle, (assoc_L (++)). by apply Hall.
    + destruct (IH acc) as (r & Heq & Hsub & Hnd & Hall).
      exists r. split; [done|].
      destruct (decide (lower t ≠ "")) as [Hne|Hne].
      * split; [by apply sublist_cons|]. split; [done|].
        intros w [->|Hw]%elem_of_cons; [|by apply Hall].
        apply elem_of_app. left.
        destruct (decide (lower t ∈ acc)) as [|Hnin]; [done|].
        by destruct Hc.
      * split; [done|]. split; [done|]. exact Hall.
  - apply IH.
  - apply IH.
Qed.

Lemma items_loop_elem items e :
  e ∈ items_loop items [] → e ≠ "" ∧ ∃ t, t ∈ span_texts items ∧ e = lower t.
Proof.
  destruct (items_loop_spec items []) as (r & -> & Hsub & _ & _). simpl.
  intros He. apply (λ H, elem_of_sublist _ _ _ H Hsub) in He.
  apply list_elem_of_filter in He as [Hne (t & -> & Ht)%list_elem_of_fmap].
  split; [done|]. by exists t.
Qed.


(** ** Further properties of the run *)

(** The fields of the globals after a round, other than the heap: either
    those before the round (a skipped word), or those before with one word
    seen, one log line, two requests, and at most one record per
    collection. *)
Lemma round_effect net W topic c c' :
  queue_allocated c → iteration net W topic c = Some c' →
  let s := globals c in
  let s' := globals c' in
  same_globals s s'
  ∨ ∃ candidate,
      (candidate ∉ used_words s)
      ∧ used_words s' = {[candidate]} ∪ used_words s
      ∧ processing_log s' = processing_log s ++ [(candidate, topic)]
      ∧ requests s' = S (S (requests s))
      ∧ quiz_items s'
        = quiz_items s
            ++ option_list (quiz_record topic candidate
                              (new_related_of net candidate s))
      ∧ (∃ syns ants,
           thesaurus_at net (S (requests s)) candidate = (syns, ants)
           ∧ thesaurus_items s'
             = thesaurus_items s
                 ++ (if bool_decide (syns ≠ [] ∨ ants ≠ [])
                     then [thesaurus_entry candidate topic syns ants] else []))
      ∧ (∃ definitions,
           (info_at net (requests s) ({[candidate]} ∪ used_words s) candidate).2
           = definitions
           ∧ definitions_items s'
             = definitions_items s
                 ++ (if bool_decide (definitions ≠ [])
                     then [definitions_entry candidate topic definitions]
                     else [])).
Proof.
  intros Hq (candidate & rest & _ & _ & _ & _ & Hcases)%iteration_spec; [|done].
  cbv zeta in *. destruct Hcases as [[_ ->] | (Hnin & _ & _ & ->)].
  - left. simpl. by eexists.
  - right. exists candidate. simpl_state.
    split; [done|]. split; [done|]. split; [done|]. split; [done|].
    split; [done|]. split.
    + destruct (thesaurus_at net (S (requests (globals c))) candidate)
        as [syns ants]. by exists syns, ants.
    + by eexists.
Qed.

Lemma extends_state_refl s : extends_state s s.
Proof. by split. Qed.

Lemma extends_state_set_heap s s' h :
  extends_state s s' → extends_state s (set_heap h s').
Proof. by intros []. Qed.

Lemma extends_state_round net W topic s c c' :
  queue_allocated c → extends_state s (globals c) →
  iteration net W topic c = Some c' → extends_state s (globals c').
Proof.
  intros Hq Hext Hit.
  destruct (round_effect net W topic c c' Hq Hit)
    as [[h ->] | (candidate & _ & Hu & Hlog & Hreq & Hquiz
                  & (syns & ants & _ & Hthes) & (defs & _ & Hdefs))].
  - by apply extends_state_set_heap.
  - destruct Hext as [Eu Eq Et Ed El Er].
    split.
    + rewrite Hu. by apply union_subseteq_r'.
    + rewrite Hquiz. by apply prefix_app_r.
    + rewrite Hthes. by apply prefix_app_r.
    + rewrite Hdefs. by apply prefix_app_r.
    + rewrite Hlog. by apply prefix_app_r.
    + rewrite Hreq. lia.
Qed.

(** X7.  The run only adds.  From any state, on any network, target size,
    configuration and list of topics, the traversal ends in a state that
    extends the one it started from: every word that was seen is still seen,
    each of the three collections and the log begin with what they held, the
    request counter did not go down, and every list object that existed
    still exists with its contents. *)
Theorem traversal_only_adds (net : network) (W : Z) (cw : gmap string loc)
    (ts : list string) (s : state) :
  extends_state s (main_loop net W cw ts s)
  ∧ ∀ l, l ∈ dom (heap s) → heap (main_loop net W cw ts s) !! l = heap s !! l.
Proof.
  split; [|intros l; apply main_loop_frame].
  apply (main_loop_rule net W cw ts (extends_state s)); [|apply extends_state_refl].
  intros topic s' _. apply process_topic_rule.
  - intros s1 h. apply extends_state_set_heap.
  - intros c c'. apply extends_state_round.
Qed.

(** X4.  Two requests per processed word.  From any state, the number of
    requests made by the traversal is twice the number of words it
    processed; skipped words cost no request.  So a run of the script from
    its empty state has made exactly twice as many requests as it has
    processed words. *)
Theorem two_requests_per_word (net : network) (W : Z) :
  (∀ cw ts s,
     (requests (main_loop net W cw ts s) + 2 * length (processing_log s)
      = requests s + 2 * length (processing_log (main_loop net W cw ts s)))%nat)
  ∧ (∀ literal ts,
       requests (expand net W literal ts)
       = (2 * length (processed_words (expand net W literal ts)))%nat).
Proof.
  assert (∀ cw ts s,
     (requests (main_loop net W cw ts s) + 2 * length (processing_log s)
      = requests s + 2 * length (processing_log (main_loop net W cw ts s)))%nat)
    as Hmain.
  { intros cw ts s.
    set (P := λ s', (requests s' + 2 * length (processing_log s)
                     = requests s + 2 * length (processing_log s'))%nat).
    apply (main_loop_rule net W cw ts P); [|done].
    intros topic s' _. apply (process_topic_rule net W cw topic P); [done|].
    unfold P. intros c c' Hq HP Hit.
    destruct (round_effect net W topic c c' Hq Hit)
      as [[h ->] | (candidate & _ & _ & Hlog & Hreq & _)]; [done|].
    rewrite Hlog, Hreq, length_app. simpl. lia. }
  split; [exact Hmain|].
  intros literal ts. rewrite expand_eq.
  destruct (load_candidate_words_eq literal ∅ empty_state) as [h Hh].
  pose proof (Hmain (load_candidate_words literal ∅ empty_state).1 ts
                (load_candidate_words literal ∅ empty_state).2) as H.
  rewrite Hh in *. simpl in H. unfold processed_words. rewrite length_fmap. lia.
Qed.

Lemma filter_all {A} (P : A → Prop) `{!∀ x, Decision (P x)} (l : list A) :
  Forall P l → filter P l = l.
Proof.
  induction 1 as [|x l Hx _ IH]; [done|].
  rewrite filter_cons, decide_True by done. by rewrite IH.
Qed.

(** The log lines a topic adds: all under that topic, and as many as the
    quota allows. *)
Lemma process_topic_block net W cw topic s :
  ∃ b,
    processing_log (process_topic net W cw topic s) = processing_log s ++ b
    ∧ Forall (λ e, e.2 = topic) b
    ∧ (Z.of_nat (length b) = 0 ∨ (Z.of_nat (length b) - 1) * 5 < W).
Proof.
  set (P := λ s', ∃ b, processing_log s' = processing_log s ++ b
                       ∧ Forall (λ e : string * string, e.2 = topic) b).
  assert (P (process_topic net W cw topic s)) as (b & Hb & Hall).
  { apply (process_topic_rule net W cw topic P).
    - intros s1 h (b & Hb & Hall). by exists b.
    - intros c c' Hq (b & Hb & Hall) Hit.
      destruct (round_effect net W topic c c' Hq Hit)
        as [[h ->] | (candidate & _ & _ & Hlog & _)]; [by exists b|].
      exists (b ++ [(candidate, topic)]).
      rewrite Hlog, Hb, <- app_assoc. split; [done|].
      apply Forall_app. split; [done|]. by constructor.
    - exists []. by rewrite app_nil_r. }
  exists b. split; [done|]. split; [done|].
  destruct (process_topic_count net W cw topic s) as [_ (n & Hn & Hnn & Hbound)].
  assert (Z.of_nat (length b) = n) as ->; [|done].
  unfold processed_under in Hn. rewrite Hb, filter_app, length_app in Hn.
  rewrite (filter_all _ b Hall) in Hn. lia.
Qed.

Lemma main_loop_blocks net W cw ts s :
  ∃ blocks,
    processing_log (main_loop net W cw ts s) = processing_log s ++ concat blocks
    ∧ Forall2 (λ topic b,
                 Forall (λ e, e.2 = topic) b
                 ∧ (Z.of_nat (length b) = 0 ∨ (Z.of_nat (length b) - 1) * 5 < W))
              ts blocks.
Proof.
  unfold main_loop. revert s. induction ts as [|t ts IH]; intros s; simpl.
  - exists []. simpl. by rewrite app_nil_r.
  - destruct (process_topic_block net W cw t s) as (b & Hb & Hall & Hlen).
    destruct (IH (process_topic net W cw t s)) as (blocks & Hblocks & Hf).
    exists (b :: blocks). simpl. rewrite Hblocks, Hb, <- app_assoc.
    split; [done|]. by constructor.
Qed.

(** X6.  Topics one after the other.  The log of a traversal that starts
    with an empty log is a sequence of blocks, one per entry of the list of
    topics and in that order (a block may be empty): every line of a block
    names the block's topic.  So words of different topics are never
    interleaved, and a block has at most as many lines as the quota allows:
    its last line was accepted while the counter was below [W / 5]. *)
Theorem topics_in_order (net : network) (W : Z)
    (literal : list (string * list string)) (ts : list string) :
  ∃ blocks,
    processing_log (expand net W literal ts) = concat blocks
    ∧ Forall2 (λ topic b,
                 Forall (λ e, e.2 = topic) b
                 ∧ (Z.of_nat (length b) = 0 ∨ (Z.of_nat (length b) - 1) * 5 < W))
              ts blocks.
Proof.
  rewrite expand_eq.
  destruct (main_loop_blocks net W (load_candidate_words literal ∅ empty_state).1
              ts (load_candidate_words literal ∅ empty_state).2)
    as (blocks & Hlog & Hf).
  exists blocks. split; [|done]. rewrite Hlog.
  destruct (load_candidate_words_eq literal ∅ empty_state) as [h ->]. done.
Qed.

(** X5.  The size of the vocabulary.  At the end of a traversal that starts
    from the empty state the number of words in [used_words], which is what
    the progress bar shows, equals the number of processed words; and in the
    script's run it is at most [WORD_COUNT], the total of the progress
    bar. *)
Theorem vocabulary_size (net : network) :
  (∀ W literal ts,
     size (used_words (expand net W literal ts))
     = length (processed_words (expand net W literal ts)))
  ∧ Z.of_nat (size (used_words (engbot net))) ≤ WORD_COUNT.
Proof.
  assert (∀ W literal ts,
     size (used_words (expand net W literal ts))
     = length (processed_words (expand net W literal ts))) as Hsize.
  { intros W literal ts.
    destruct (dedup_inv_expand net W literal ts) as [Hnd Hused _ _ _].
    rewrite Hused. by apply size_list_to_set. }
  split; [exact Hsize|].
  rewrite engbot_expand, Hsize. unfold processed_words. rewrite length_fmap.
  pose proof (main_loop_blocks net WORD_COUNT candidate_words topics
                initial_state) as (blocks & Hlog & Hf).
  pose proof (expand_eq net WORD_COUNT candidate_words_literal topics) as He.
  fold candidate_words initial_state in He. rewrite He, Hlog.
  change (processing_log initial_state) with (@nil (string * string)).
  rewrite app_nil_l. unfold topics in Hf.
  repeat match goal with
         | H : Forall2 _ (_ :: _) _ |- _ =>
             apply Forall2_cons_inv_l in H as (? & ? & [_ ?] & H & ->)
         | H : Forall2 _ [] _ |- _ => apply Forall2_nil_inv_l in H as ->
         end.
  simpl. rewrite !length_app. simpl. unfold WORD_COUNT in *. lia.
Qed.

(** The start of a topic, with the contents of its queue. *)
Lemma process_topic_init net W cw topic s :
  ∃ q h,
    process_topic net W cw topic s
    = globals (topic_loop net W topic (LoopState q 0 (set_heap h s)))
    ∧ h !! q = Some (seeds_of cw s topic).
Proof.
  unfold process_topic, seeds_of.
  destruct (cw !! topic) as [l|]; rewrite !alloc_eq; cbv beta iota zeta.
  - eexists _, _. split; [reflexivity|]. apply lookup_insert_eq.
  - eexists _, _. split; [reflexivity|]. simpl_state.
    rewrite lookup_total_insert_eq. apply lookup_insert_eq.
Qed.

Lemma iteration_none net W topic c :
  iteration net W topic c = None →
  deref (globals c) (queue c) = [] ∨ W ≤ topic_used_words c * 5.
Proof.
  unfold iteration, lt_true_div.
  destruct (deref (globals c) (queue c)) as [|candidate rest]; [by left|].
  case_bool_decide; [|intros _; right; lia].
  by case_bool_decide.
Qed.

Lemma process_topic_unfold net W cw topic s :
  process_topic net W cw topic s
  = globals (topic_loop net W topic (topic_start cw topic s)).
Proof. unfold process_topic, topic_start. by destruct (cw !! topic). Qed.

Lemma topic_start_queue cw topic s :
  topic_used_words (topic_start cw topic s) = 0
  ∧ heap (globals (topic_start cw topic s)) !! queue (topic_start cw topic s)
    = Some (seeds_of cw s topic)
  ∧ same_globals s (globals (topic_start cw topic s)).
Proof.
  unfold topic_start, seeds_of.
  destruct (cw !! topic) as [l|]; rewrite !alloc_eq; cbv beta iota zeta;
    simpl_state.
  - split; [done|]. split; [apply lookup_insert_eq|]. by eexists.
  - split; [done|]. split; [|by eexists].
    rewrite lookup_total_insert_eq. apply lookup_insert_eq.
Qed.

(** X8.  Why a topic ends.  The loop of a topic works on one list object,
    the queue created when the topic starts as a copy of its seeds.  When
    the loop ends, its condition fails: either that queue is empty, or the
    number of words the topic processed has reached the quota: it is then
    the least number whose fivefold is at least [W], which for the script's
    [WORD_COUNT] is exactly 2000.  A topic never stops short of its quota
    while words are waiting. *)
Theorem topic_ends_exhausted_or_full (net : network) (W : Z)
    (cw : gmap string loc) (topic : string) (s : state) :
  let c0 := topic_start cw topic s in
  let c' := topic_loop net W topic c0 in
  process_topic net W cw topic s = globals c'
  ∧ heap (globals c0) !! queue c0 = Some (seeds_of cw s topic)
  ∧ queue c' = queue c0
  ∧ iteration net W topic c' = None
  ∧ ∃ b waiting,
      processing_log (globals c') = processing_log s ++ b
      ∧ topic_used_words c' = Z.of_nat (length b)
      ∧ heap (globals c') !! queue c0 = Some waiting
      ∧ (waiting = []
         ∨ (W ≤ Z.of_nat (length b) * 5
            ∧ (Z.of_nat (length b) = 0 ∨ (Z.of_nat (length b) - 1) * 5 < W)
            ∧ (W = WORD_COUNT → length b = 2000%nat))).
Proof.
  intros c0 c'.
  destruct (topic_start_queue cw topic s) as (Hn0 & Hq0 & [h0 Hg0]).
  fold c0 in Hn0, Hq0, Hg0.
  split; [apply process_topic_unfold|]. split; [done|].
  set (I := λ c, queue_allocated c ∧ queue c = queue c0
                 ∧ quota_inv W topic s c
                 ∧ ∃ b, processing_log (globals c) = processing_log s ++ b
                        ∧ Forall (λ e : string * string, e.2 = topic) b).
  destruct (topic_loop_rule net W topic I) with (c := c0)
    as [(Hqa & Hq & [_ Hcount Hnn Hbound] & b & Hb & Hall) Hexit].
  - intros c c1 (Hqa & Hq & Hinv & b & Hb & Hall) Hit. split; [|split; [|split]].
    + by eapply iteration_queue_allocated.
    + apply iteration_spec in Hit as (_ & _ & _ & _ & Hq' & _); [|done].
      by rewrite Hq'.
    + by eapply quota_inv_round.
    + destruct (round_effect net W topic c c1 Hqa Hit)
        as [[h' ->] | (candidate & _ & _ & Hlog & _)]; [by exists b|].
      exists (b ++ [(candidate, topic)]).
      rewrite Hlog, Hb, <- app_assoc. split; [done|].
      apply Forall_app. split; [done|]. by constructor.
  - split; [|split; [|split]].
    + apply elem_of_dom. eauto.
    + done.
    + split; rewrite ?Hg0; unfold processed_under; simpl; rewrite ?Hn0;
        first [done | lia | by left].
    + exists []. rewrite Hg0. simpl. by rewrite app_nil_r.
  - fold c' in Hqa, Hq, Hcount, Hnn, Hbound, Hb, Hexit.
    split; [done|]. split; [done|].
    assert (Z.of_nat (length b) = topic_used_words c') as Hlen.
    { unfold processed_under in Hcount.
      rewrite Hb, filter_app, length_app, (filter_all _ b Hall) in Hcount. lia. }
    unfold queue_allocated in Hqa. rewrite Hq in Hqa.
    apply elem_of_dom in Hqa as [waiting Hw].
    exists b, waiting. split; [done|]. split; [done|]. split; [done|].
    destruct (iteration_none net W topic c' Hexit) as [Hempty|Hfull].
    + left. unfold deref in Hempty. rewrite Hq in Hempty.
      by rewrite (lookup_total_correct _ _ _ Hw) in Hempty.
    + right. rewrite Hlen. split; [done|]. split; [done|].
      intros ->. unfold WORD_COUNT in *. lia.
Qed.


Lemma same_globals_trans s1 s2 s3 :
  same_globals s1 s2 → same_globals s2 s3 → same_globals s1 s3.
Proof. intros [h ->] [h' ->]. by exists h'. Qed.

(** X10.  A target size that is not positive.  With [W <= 0] the loop
    condition fails at once for every topic, so the traversal makes no
    request and sees, logs and collects nothing, whatever the seeds are. *)
Theorem nonpositive_target (net : network) (W : Z) (cw : gmap string loc)
    (ts : list string) (s : state) :
  W ≤ 0 → same_globals s (main_loop net W cw ts s).
Proof.
  intros HW.
  apply (main_loop_rule net W cw ts (same_globals s)); [|by exists (heap s); rewrite set_heap_id].
  intros topic s' _ Hs'.
  destruct (process_topic_init net W cw topic s') as (q & h & -> & _).
  set (I := λ c, 0 ≤ topic_used_words c ∧ same_globals s (globals c)).
  destruct (topic_loop_rule net W topic I)
    with (c := LoopState q 0 (set_heap h s')) as [[_ Hsame] _]; [| |done].
  - intros c c' [Hnn _] (_ & _ & _ & Hlt & _)%iteration_cases. lia.
  - split; [done|]. simpl. eapply same_globals_trans; [exact Hs'|]. by exists h.
Qed.

(** ** Well-formed records *)

Lemma new_related_of_elem net candidate s e :
  e ∈ new_related_of net candidate s →
  e ≠ "" ∧ e ≠ candidate ∧ (e ∉ used_words s).
Proof.
  unfold new_related_of, info_at.
  intros [Hnin He]%list_elem_of_filter.
  apply scrape_cambridge_info_related in He as (Hne & _).
  split; [done|]. split.
  - intros ->. apply Hnin, elem_of_union_l. by apply elem_of_singleton.
  - intros Hin. apply Hnin. by apply elem_of_union_r.
Qed.

Lemma well_formed_quiz_mono log log' qi :
  log `prefix_of` log' → well_formed_quiz log qi → well_formed_quiz log' qi.
Proof.
  intros [k ->] (w & t & Hin & H). exists w, t. split; [|done].
  apply elem_of_app. by left.
Qed.

Lemma quiz_record_fields topic candidate_word related qi :
  quiz_record topic candidate_word related = Some qi →
  ∃ correct,
    head related = Some correct
    ∧ Option_1 qi = correct
    ∧ options_of qi = padded_options related
    ∧ Question_Text qi = question_text candidate_word
    ∧ Correct_Answer qi = "1"
    ∧ Answer_explanation qi = answer_explanation correct candidate_word topic.
Proof.
  destruct related as [|x nr]; [done|]. intros [= <-]. exists x.
  split; [done|]. split; [done|]. split; [|done].
  unfold options_of. cbn [Option_1 Option_2 Option_3 Option_4 Option_5].
  apply (list_of_five (padded_options (x :: nr))), padded_options_length.
Qed.

Lemma quiz_record_well_formed net topic candidate s qi log :
  (candidate, topic) ∈ log →
  quiz_record topic candidate (new_related_of net candidate s) = Some qi →
  well_formed_quiz log qi.
Proof.
  intros Hlog (x & Hhead & H1 & Hopts & Htext & Hcorrect & Hexpl)%quiz_record_fields.
  pose proof (new_related_of_elem net candidate s) as Helem.
  exists candidate, topic. split; [done|]. split; [done|].
  apply head_Some_elem_of in Hhead as Hx.
  split. { rewrite H1. by destruct (Helem x Hx) as (? & _). }
  split; [|by rewrite H1].
  rewrite Hopts. apply Forall_forall. intros o [Ho Hin]%list_elem_of_filter.
  unfold padded_options in Hin.
  apply elem_of_app in Hin as [Hin | Hin%elem_of_replicate]; [|by destruct Hin].
  assert (o ∈ new_related_of net candidate s) as Ho'.
  { eapply elem_of_sublist; [exact Hin|]. apply sublist_take. }
  by destruct (Helem o Ho') as (_ & ? & _).
Qed.

Lemma join_nonempty sep l :
  l ≠ [] → Forall (λ t, t ≠ "") l → PyStr.join sep l ≠ "".
Proof.
  destruct l as [|x l]; [done|]. intros _ [Hx _]%Forall_cons.
  destruct l; simpl; [done|]. by destruct x.
Qed.

Lemma info_at_definitions_nonempty net n used word :
  Forall (λ t, t ≠ "") (info_at net n used word).2.
Proof.
  unfold info_at, scrape_cambridge_info, requests_get. simpl_state.
  destruct (net n (info_url word)) as [|code page]; [done|].
  case_bool_decide; [done|]. simpl. rewrite definitions_loop_filter. simpl.
  apply Forall_forall. by intros t [Ht _]%list_elem_of_filter.
Qed.

Lemma thesaurus_at_nonempty net n word :
  Forall (λ t, t ≠ "") (thesaurus_at net n word).1
  ∧ Forall (λ t, t ≠ "") (thesaurus_at net n word).2.
Proof.
  unfold thesaurus_at, scrape_cambridge_thesaurus, requests_get. simpl_state.
  destruct (net n (thesaurus_url word)) as [|code page]; [done|].
  case_bool_decide; [done|]. simpl.
  split.
  - destruct (syn_container page); [|done].
    apply Forall_forall. intros e He. by apply items_loop_elem in He as [? _].
  - destruct (ant_container page); [|done].
    apply Forall_forall. intros e He. by apply items_loop_elem in He as [? _].
Qed.

Lemma records_inv_round net W topic c c' :
  queue_allocated c → records_inv (globals c) →
  iteration net W topic c = Some c' → records_inv (globals c').
Proof.
  intros Hq [Hquiz Hthes Hdefs] Hit.
  destruct (round_effect net W topic c c' Hq Hit)
    as [[h ->] | (candidate & _ & _ & Hlog & _ & Hq'
                  & (syns & ants & Hth & Ht') & (defs & Hdf & Hd'))]; [done|].
  split.
  - rewrite Hq', Hlog. clear Ht' Hd'. apply Forall_app. split.
    + eapply Forall_impl; [exact Hquiz|]. intros qi.
      apply well_formed_quiz_mono. by apply prefix_app_r.
    + destruct (quiz_record _ _ _) as [qi|] eqn:Hqr; simpl; [|done].
      constructor; [|done]. eapply quiz_record_well_formed; [|exact Hqr].
      apply elem_of_app. right. by left.
  - rewrite Ht', Hlog. clear Ht' Hd'. apply Forall_app. split.
    + eapply Forall_impl; [exact Hthes|]. intros r [Hin Hnb].
      split; [|done]. apply elem_of_app. by left.
    + case_bool_decide as Hne; [|by constructor].
      constructor; [|by constructor]. split.
      * apply elem_of_app. right. simpl. by left.
      * pose proof (thesaurus_at_nonempty net (S (requests (globals c))) candidate)
          as [Hs Ha].
        rewrite Hth in Hs, Ha. simpl in Hs, Ha. simpl.
        destruct Hne as [Hne|Hne]; [left|right]; by apply join_nonempty.
  - rewrite Hd', Hlog. clear Ht' Hd'. apply Forall_app. split.
    + eapply Forall_impl; [exact Hdefs|]. intros d [Hin Hnb].
      split; [|done]. apply elem_of_app. by left.
    + case_bool_decide as Hne; [|by constructor].
      constructor; [|by constructor]. split.
      * apply elem_of_app. right. simpl. by left.
      * simpl. apply join_nonempty; [done|]. rewrite <- Hdf.
        apply info_at_definitions_nonempty.
Qed.

Lemma records_inv_expand net W literal ts : records_inv (expand net W literal ts).
Proof.
  rewrite expand_eq. apply main_loop_rule.
  - intros topic s _. apply process_topic_rule.
    + by intros s1 h [].
    + intros c c'. apply records_inv_round.
  - destruct (load_candidate_words_eq literal ∅ empty_state) as [h ->].
    split; simpl; constructor.
Qed.

(** X11.  Quiz records belong to processed words.  Every quiz record of a
    traversal that starts from the empty state belongs to a line of the
    log, a word [w] processed under a topic [t]: it asks about [w]; its
    first option, the correct answer, is not blank; none of its options
    that are not blank is [w]; its correct-answer field is "1"; and its
    explanation names the first option, [w] and [t]. *)
Theorem quiz_records_well_formed (net : network) (W : Z)
    (literal : list (string * list string)) (ts : list string) :
  let s := expand net W literal ts in
  Forall (λ qi,
            ∃ w t,
              (w, t) ∈ processing_log s
              ∧ Question_Text qi = question_text w
              ∧ Option_1 qi ≠ ""
              ∧ Forall (λ o, o ≠ w) (filter (λ o, o ≠ "") (options_of qi))
              ∧ Correct_Answer qi = "1"
              ∧ Answer_explanation qi
                = answer_explanation (Option_1 qi) w t)
         (quiz_items s).
Proof.
  intros s. by destruct (records_inv_expand net W literal ts) as [Hquiz _ _].
Qed.

(** X12.  No blank thesaurus or definition record.  Every thesaurus record
    of a traversal that starts from the empty state carries the word and the
    topic of a line of the log and has a non-empty synonym field or a
    non-empty antonym field; every definition record carries the word and
    the topic of a line of the log and has a non-empty definition field. *)
Theorem thesaurus_and_definition_records_not_blank (net : network) (W : Z)
    (literal : list (string * list string)) (ts : list string) :
  let s := expand net W literal ts in
  Forall (λ r, (th_Word r, th_Topic r) ∈ processing_log s
               ∧ (th_Synonyms r ≠ "" ∨ th_Antonyms r ≠ ""))
         (thesaurus_items s)
  ∧ Forall (λ d, (df_Word d, df_Topic d) ∈ processing_log s
                 ∧ df_Definition d ≠ "")
           (definitions_items s).
Proof.
  intros s. destruct (records_inv_expand net W literal ts) as [_ Ht Hd].
  split; [exact Ht | exact Hd].
Qed.

(** ** Where processed words come from *)

Lemma found_before_mono net log k i i' t w :
  (i ≤ length log)%nat → (i ≤ i')%nat →
  found_before net log i t w → found_before net (log ++ k) i' t w.
Proof.
  intros Hi Hi' (j & w' & Hj & Hl & Hin). exists j, w'.
  split; [lia|]. split; [by apply lookup_app_l_Some|].
  rewrite fmap_app, take_app_le by (rewrite length_fmap; lia). done.
Qed.

Lemma provenance_inv_set_heap net seeds s h :
  provenance_inv net seeds s → provenance_inv net seeds (set_heap h s).
Proof. by intros []. Qed.

Lemma provenance_inv_round net W topic seeds c c' :
  queue_allocated c →
  provenance_inv net seeds (globals c) ∧ queue_found net seeds topic c →
  iteration net W topic c = Some c' →
  provenance_inv net seeds (globals c') ∧ queue_found net seeds topic c'.
Proof.
  intros Hqa [[Hreq Hused Hlog] Hqueue]
    (candidate & rest & Hl & _ & Hq' & Hdom & Hcases)%iteration_spec; [|done].
  cbv zeta in Hcases. unfold queue_found in *. cbv zeta in *. unfold deref in Hqueue.
  rewrite (lookup_total_correct _ _ _ Hl) in Hqueue.
  apply Forall_cons in Hqueue as [Hcand Hrest].
  rewrite Hq'. destruct Hcases as [[_ ->] | (_ & _ & _ & ->)].
  { split; [by split|]. simpl. by rewrite deref_store. }
  set (log := processing_log (globals c)) in *.
  assert (∀ w, w ∈ seeds topic ∨ found_before net log (length log) topic w →
               w ∈ seeds topic
               ∨ found_before net (log ++ [(candidate, topic)])
                   (length (log ++ [(candidate, topic)])) topic w) as Hmono.
  { intros w [?|Hw]; [by left|right].
    apply (found_before_mono net log _ (length log)); [done| |done].
    rewrite length_app. lia. }
  split; [split|]; simpl_state; fold log.
  - rewrite Hreq, length_app. simpl. lia.
  - rewrite Hused. fold log. rewrite fmap_app, list_to_set_app_L. simpl.
    rewrite (right_id_L ∅ (∪)). apply (comm_L (∪)).
  - intros i w t [Hi | [Hi Hlast]]%lookup_app_Some.
    + destruct (Hlog i w t Hi) as [?|Hw]; [by left|right].
      apply (found_before_mono net log _ i); [|done|done].
      apply lookup_lt_Some in Hi. lia.
    + destruct (i - length log)%nat as [|n] eqn:Hn; [|done].
      simpl in Hlast. simplify_eq.
      assert (i = length log) as -> by lia.
      destruct Hcand as [?|Hw]; [by left|right].
      by apply (found_before_mono net log _ (length log)).
  - unfold deref. cbn [heap].
    erewrite lookup_total_correct;
      [|apply heap_after_queue, elem_of_dom; rewrite lookup_insert_eq; eauto].
    rewrite lookup_total_insert_eq. apply Forall_app. split.
    + eapply Forall_impl; [exact Hrest|]. exact Hmono.
    + apply Forall_forall. intros e He. right.
      unfold new_related_of in He. simpl_state.
      apply list_elem_of_filter in He as [_ He].
      exists (length log), candidate. rewrite length_app. simpl.
      split; [lia|]. split; [by apply list_lookup_middle|].
      rewrite fmap_app, take_app_le, firstn_all2 by (rewrite ?length_fmap; lia).
      by rewrite Hreq, Hused in He.
Qed.

Lemma process_topic_provenance net W cw topic s seeds :
  seeds topic = seeds_of cw s topic →
  provenance_inv net seeds s →
  provenance_inv net seeds (process_topic net W cw topic s).
Proof.
  intros Hseeds Hinv.
  destruct (process_topic_init net W cw topic s) as (q & h & -> & Hq).
  set (I := λ c, queue_allocated c
                 ∧ provenance_inv net seeds (globals c)
                 ∧ queue_found net seeds topic c).
  destruct (topic_loop_rule net W topic I)
    with (c := LoopState q 0 (set_heap h s)) as [(_ & Hp & _) _]; [| |done].
  - intros c c' (Hqa & Hp & Hqf) Hit.
    split; [by eapply iteration_queue_allocated|].
    by eapply provenance_inv_round.
  - split; [|split].
    + apply elem_of_dom. simpl. eauto.
    + by apply provenance_inv_set_heap.
    + unfold queue_found, deref. simpl. rewrite (lookup_total_correct _ _ _ Hq).
      apply Forall_forall. intros w Hw. left. by rewrite Hseeds.
Qed.

Lemma main_loop_provenance net W cw ts s seeds :
  (∀ t l, cw !! t = Some l → l ∈ dom (heap s)) →
  (∀ t, seeds t = seeds_of cw s t) →
  provenance_inv net seeds s →
  provenance_inv net seeds (main_loop net W cw ts s).
Proof.
  unfold main_loop. revert s.
  induction ts as [|t ts IH]; intros s Hcw Hseeds Hinv; simpl; [done|].
  assert (∀ t' l, cw !! t' = Some l →
            heap (process_topic net W cw t s) !! l = heap s !! l) as Hframe.
  { intros t' l Hl. apply process_topic_frame. by eapply Hcw. }
  apply IH.
  - intros t' l Hl. apply elem_of_dom. rewrite (Hframe t' l Hl).
    apply elem_of_dom. by eapply Hcw.
  - intros t'. rewrite Hseeds. unfold seeds_of.
    destruct (cw !! t') as [l|] eqn:Hl; [|done].
    unfold deref. by rewrite !lookup_total_alt, (Hframe _ _ Hl).
  - by apply process_topic_provenance.
Qed.

(** X13.  Where processed words come from.  In a traversal from the empty
    state, every word processed under a topic is one of the seeds that
    [candidate_words] holds for that topic, or it is an entry of the related
    list that the primary lookup returned for a word processed earlier under
    the same topic: the [j]-th processed word, whose lookup was request
    number [2 * j] and read a seen set made of the [j] words processed
    before it and of itself.  Nothing else ever enters a queue; so a topic
    that has no seeds contributes no word at all. *)
Theorem processed_words_provenance (net : network) (W : Z)
    (literal : list (string * list string)) (ts : list string) :
  let cw := (load_candidate_words literal ∅ empty_state).1 in
  let s0 := (load_candidate_words literal ∅ empty_state).2 in
  let log := processing_log (expand net W literal ts) in
  (∀ i w t,
     log !! i = Some (w, t) →
     w ∈ seeds_of cw s0 t
     ∨ ∃ j w',
         (j < i)%nat
         ∧ log !! j = Some (w', t)
         ∧ w ∈ (info_at net (2 * j) (list_to_set (w' :: take j log.*1)) w').1)
  ∧ (∀ w t, seeds_of cw s0 t = [] → (w, t) ∉ log).
Proof.
  intros cw s0 log.
  assert (provenance_inv net (seeds_of cw s0) (expand net W literal ts))
    as [_ _ Hlog].
  { rewrite expand_eq. fold cw s0. apply main_loop_provenance; [|done|].
    - intros t l Hl.
      apply (load_candidate_words_allocated literal ∅ empty_state t l); [|done].
      intros t' l'. by rewrite lookup_empty.
    - subst s0. destruct (load_candidate_words_eq literal ∅ empty_state) as [h ->].
      apply provenance_inv_set_heap. split; simpl; [done|done|].
      intros i w t. by rewrite lookup_nil. }
  fold log in Hlog. split; [exact Hlog|].
  intros w t Hnone [i Hi]%list_elem_of_lookup.
  revert w Hi. induction (lt_wf i) as [i _ IH]. intros w Hi.
  destruct (Hlog i w t Hi) as [Hin | (j & w' & Hj & Hlj & _)].
  - rewrite Hnone in Hin. by apply elem_of_nil in Hin.
  - by apply (IH j Hj w').
Qed.

(** ** The second filter, and the sizes of the collections *)

(** X14.  The filter of the traversal removes nothing.  The primary lookup
    reads the global [used_words] after the candidate has entered it and
    already drops every seen word, so the list comprehension that builds
    [new_related] returns the related list of the lookup unchanged: the
    words appended to the queue and offered to the quiz builder are exactly
    the words the lookup returned. *)
Theorem traversal_filter_is_identity (net : network) (candidate : string)
    (s : state) :
  new_related_of net candidate s
  = (info_at net (requests s) ({[candidate]} ∪ used_words s) candidate).1
  ∧ ∀ topic c,
      queue_allocated c →
      globals c = s →
      heap (globals (process_candidate net topic candidate c)) !! queue c
      = Some (deref s (queue c)
              ++ (info_at net (requests s) ({[candidate]} ∪ used_words s)
                    candidate).1).
Proof.
  assert (new_related_of net candidate s
          = (info_at net (requests s) ({[candidate]} ∪ used_words s) candidate).1)
    as Hid.
  { unfold new_related_of. apply filter_all, Forall_forall. intros e He.
    unfold info_at in He.
    by apply scrape_cambridge_info_related in He as (_ & Hnin & _). }
  split; [exact Hid|].
  intros topic c Hq <-. rewrite process_candidate_spec by done. simpl_state.
  rewrite <- Hid. by apply heap_after_queue.
Qed.

Lemma engbot_log_length net :
  Z.of_nat (length (processing_log (engbot net))) ≤ WORD_COUNT.
Proof.
  pose proof (main_loop_blocks net WORD_COUNT candidate_words topics
                initial_state) as (blocks & Hlog & Hf).
  unfold engbot. rewrite Hlog.
  change (processing_log initial_state) with (@nil (string * string)).
  rewrite app_nil_l. unfold topics in Hf.
  repeat match goal with
         | H : Forall2 _ (_ :: _) _ |- _ =>
             apply Forall2_cons_inv_l in H as (? & ? & [_ ?] & H & ->)
         | H : Forall2 _ [] _ |- _ => apply Forall2_nil_inv_l in H as ->
         end.
  simpl. rewrite !length_app. simpl. unfold WORD_COUNT in *. lia.
Qed.

(** X15.  The sizes of the three datasets.  A traversal from the empty
    state produces at most one quiz record, one thesaurus record and one
    definition record per processed word; in the script's run each of the
    three collections therefore has at most [WORD_COUNT] rows. *)
Theorem dataset_sizes (net : network) :
  (∀ W literal ts,
     let s := expand net W literal ts in
     (length (quiz_items s) ≤ length (processed_words s))%nat
     ∧ (length (thesaurus_items s) ≤ length (processed_words s))%nat
     ∧ (length (definitions_items s) ≤ length (processed_words s))%nat)
  ∧ Z.of_nat (length (quiz_items (engbot net))) ≤ WORD_COUNT
  ∧ Z.of_nat (length (thesaurus_items (engbot net))) ≤ WORD_COUNT
  ∧ Z.of_nat (length (definitions_items (engbot net))) ≤ WORD_COUNT.
Proof.
  assert (∀ W literal ts,
     let s := expand net W literal ts in
     (length (quiz_items s) ≤ length (processed_words s))%nat
     ∧ (length (thesaurus_items s) ≤ length (processed_words s))%nat
     ∧ (length (definitions_items s) ≤ length (processed_words s))%nat) as Hgen.
  { intros W literal ts s.
    destruct (dedup_inv_expand net W literal ts) as [_ _ Hq Ht Hd]. fold s in Hq, Ht, Hd.
    apply sublist_length in Hq. apply sublist_length in Ht.
    apply sublist_length in Hd. unfold processed_words in *.
    rewrite !length_fmap in Hq. rewrite !length_fmap in Ht.
    rewrite !length_fmap in Hd. rewrite length_fmap. done. }
  split; [exact Hgen|].
  pose proof (Hgen WORD_COUNT candidate_words_literal topics) as (Hq & Ht & Hd).
  cbv zeta in Hq, Ht, Hd. rewrite <- engbot_expand in Hq, Ht, Hd.
  pose proof (engbot_log_length net) as Hlen.
  unfold processed_words in *.
  rewrite length_fmap in Hq. rewrite length_fmap in Ht. rewrite length_fmap in Hd.
  unfold WORD_COUNT in *. lia.
Qed.

(** ** Seeds before their children *)

Lemma topic_loop_extends net W topic c :
  queue_allocated c →
  extends_state (globals c) (globals (topic_loop net W topic c)).
Proof.
  intros Hq.
  destruct (topic_loop_rule net W topic
              (λ c', queue_allocated c' ∧ extends_state (globals c) (globals c')))
    with (c := c) as [[_ Hext] _]; [| |done].
  - intros c1 c2 [Hq1 Hext] Hit. split.
    + by eapply iteration_queue_allocated.
    + by eapply extends_state_round.
  - split; [done|apply extends_state_refl].
Qed.

Lemma topic_loop_seeds_first net W topic seeds :
  ∀ c tail,
    heap (globals c) !! queue c = Some (seeds ++ tail) →
    NoDup seeds →
    Forall (λ w, w ∉ used_words (globals c)) seeds →
    seeds = [] ∨ (topic_used_words c + Z.of_nat (length seeds) - 1) * 5 < W →
    0 ≤ topic_used_words c →
    ∃ c',
      topic_loop net W topic c = topic_loop net W topic c'
      ∧ queue_allocated c'
      ∧ processing_log (globals c')
        = processing_log (globals c) ++ ((λ w, (w, topic)) <$> seeds).
Proof.
  induction seeds as [|w seeds IH]; intros c tail Hl Hnd Hunseen Hquota Hnn.
  - exists c. split; [done|]. split; [apply elem_of_dom; eauto|].
    simpl. by rewrite app_nil_r.
  - destruct Hquota as [|Hquota]; [done|].
    apply NoDup_cons in Hnd as [Hw Hnd].
    apply Forall_cons in Hunseen as [Hwu Hunseen].
    rewrite length_cons in Hquota.
    destruct (iteration_processed net W topic c w (seeds ++ tail))
      as (c1 & Hit & Hq1 & Hn1 & Hl1 & Hu1 & Hlog1); [done|done|lia|].
    rewrite <- app_assoc, <- Hq1 in Hl1.
    destruct (IH c1 _ Hl1 Hnd) as (c' & Hloop & Hq' & Hlog').
    + rewrite Hu1. apply Forall_forall. intros w' Hw'.
      rewrite Forall_forall in Hunseen.
      apply not_seen_after; [by intros -> | by apply Hunseen].
    + right. lia.
    + lia.
    + exists c'. split; [by rewrite (topic_loop_step _ _ _ c), Hit|].
      split; [done|]. rewrite Hlog', Hlog1, <- app_assoc. done.
Qed.

(** X16.  Seeds before their children.  When the seeds of a topic are
    pairwise distinct, none of them has been seen, and the quota leaves room
    for all of them, the topic processes its seeds first, in the order of
    the seed list: the log of the topic begins with one line per seed, and
    whatever the lookups of the seeds discovered is processed only after
    the last seed. *)
Theorem seeds_are_processed_first (net : network) (W : Z)
    (cw : gmap string loc) (topic : string) (s : state) :
  NoDup (seeds_of cw s topic) →
  Forall (λ w, w ∉ used_words s) (seeds_of cw s topic) →
  seeds_of cw s topic = []
  ∨ (Z.of_nat (length (seeds_of cw s topic)) - 1) * 5 < W →
  (processing_log s ++ ((λ w, (w, topic)) <$> seeds_of cw s topic))
    `prefix_of` processing_log (process_topic net W cw topic s).
Proof.
  intros Hnd Hunseen Hquota.
  destruct (process_topic_init net W cw topic s) as (q & h & -> & Hq).
  assert (heap (globals (LoopState q 0 (set_heap h s)))
            !! queue (LoopState q 0 (set_heap h s))
          = Some (seeds_of cw s topic ++ [])) as Hl
    by (by rewrite app_nil_r).
  assert (seeds_of cw s topic = []
          ∨ (topic_used_words (LoopState q 0 (set_heap h s))
             + Z.of_nat (length (seeds_of cw s topic)) - 1) * 5 < W) as Hquota'.
  { destruct Hquota as [?|?]; [by left|right; simpl; lia]. }
  destruct (topic_loop_seeds_first net W topic (seeds_of cw s topic)
              (LoopState q 0 (set_heap h s)) [] Hl Hnd Hunseen Hquota')
    as (c' & -> & Hq' & Hlog); [done|].
  simpl in Hlog. rewrite <- Hlog.
  by destruct (topic_loop_extends net W topic c' Hq').
Qed.

Lemma ecosystem_seeds :
  seeds_of candidate_words initial_state "The Ecosystem"
  = [ "nature"; "plants"; "animals"; "water"; "air"; "earth"; "forest";
      "trees"; "rivers"; "pollution"; "soil"; "climate"; "wildlife"; "ocean";
      "grass"; "ecosystem"; "habitat"; "species"; "weather"; "recycle" ].
Proof. by vm_compute. Qed.

(** ** The builder and the store *)

(** X17.  The builder and the store.  Called on a list object holding the
    empty list, the builder returns no record and leaves the state as it
    is, without creating a list object.  Called on a non-empty list it
    returns a record and creates exactly one list object, the option list of
    length five; every other list object and every other global stay as
    they were. *)
Theorem quiz_builder_allocation (topic candidate_word : string)
    (related_synonyms : loc) (s : state) (related : list string) :
  heap s !! related_synonyms = Some related →
  (related = [] →
   create_quiz_item topic candidate_word related_synonyms s = (None, s))
  ∧ (related ≠ [] →
     ∃ qi options,
       create_quiz_item topic candidate_word related_synonyms s
       = (Some qi, store options (padded_options related) s)
       ∧ (options ∉ dom (heap s))
       ∧ length (padded_options related) = 5%nat
       ∧ take 5 related `prefix_of` padded_options related).
Proof.
  intros Hr. rewrite (create_quiz_item_spec _ _ _ _ _ Hr). split.
  - intros ->. simpl. by rewrite set_heap_id.
  - intros Hne.
    assert (∃ qi, quiz_record topic candidate_word related = Some qi)
      as [qi ->] by (destruct related; [done|by eexists]).
    assert (heap_with_options (heap s) related
            = <[fresh (dom (heap s)) := padded_options related]> (heap s))
      as -> by (by destruct related).
    exists qi, (fresh (dom (heap s))). split; [done|].
    split; [apply is_fresh|]. split; [apply padded_options_length|].
    unfold padded_options. by eexists.
Qed.

Lemma quiz_builder_allocation_witness :
  (["c"; "d"] = [] →
   create_quiz_item "T1" "a" 1%positive two_related = (None, two_related))
  ∧ (["c"; "d"] ≠ [] →
     ∃ qi options,
       create_quiz_item "T1" "a" 1%positive two_related
       = (Some qi, store options (padded_options ["c"; "d"]) two_related)
       ∧ (options ∉ dom (heap two_related))
       ∧ length (padded_options ["c"; "d"]) = 5%nat
       ∧ take 5 ["c"; "d"] `prefix_of` padded_options ["c"; "d"]).
Proof.
  apply (quiz_builder_allocation "T1" "a" 1%positive two_related ["c"; "d"]).
  by vm_compute.
Defined.


End Engbot.

(** ** Runs on concrete pages *)

(** The pages of the runs below hold ASCII texts only, on which
    [str.lower] and [str.strip] are [AsciiStr.lower] and [AsciiStr.strip]. *)

Lemma lower_ascii_idemp a :
  AsciiStr.lower_ascii (AsciiStr.lower_ascii a) = AsciiStr.lower_ascii a.
Proof. by destruct a as [[] [] [] [] [] [] [] []]. Qed.

Lemma lower_idemp s : AsciiStr.lower (AsciiStr.lower s) = AsciiStr.lower s.
Proof. induction s as [|a s IH]; simpl; [done|]. by rewrite lower_ascii_idemp, IH. Qed.

Lemma bfs_net_a n used :
  "c" ∉ used →
  (info_at AsciiStr.lower AsciiStr.strip bfs_net n used "a").1 = ["c"].
Proof.
  intros Hc. unfold info_at, scrape_cambridge_info, requests_get, bfs_net.
  simpl_state. cbn [serve].
  rewrite (bool_decide_true (info_url "a" = info_url "a")) by done.
  rewrite bool_decide_false by (intros H; by apply H).
  rewrite (bool_decide_true ("a" = "a")) by done.
  cbn [daccord_lb info_page fmap list_fmap related_loop fst a_title].
  change (AsciiStr.lower (AsciiStr.strip "c")) with "c".
  change (AsciiStr.lower "a") with "a".
  by rewrite bool_decide_true.
Qed.

Lemma bfs_net_b n used :
  "d" ∉ used →
  (info_at AsciiStr.lower AsciiStr.strip bfs_net n used "b").1 = ["d"].
Proof.
  intros Hc. unfold info_at, scrape_cambridge_info, requests_get, bfs_net.
  simpl_state. cbn [serve].
  rewrite (bool_decide_false (info_url "b" = info_url "a")) by (by vm_compute).
  rewrite (bool_decide_true (info_url "b" = info_url "b")) by done.
  rewrite bool_decide_false by (intros H; by apply H).
  rewrite (bool_decide_false ("b" = "a")) by done.
  cbn [daccord_lb info_page fmap list_fmap related_loop fst a_title].
  change (AsciiStr.lower (AsciiStr.strip "d")) with "d".
  change (AsciiStr.lower "b") with "b".
  by rewrite bool_decide_true.
Qed.

Lemma bfs_ordering_witness :
  processed_words
    (expand AsciiStr.lower AsciiStr.strip bfs_net 20 [("T1", ["a"; "b"])] ["T1"])
  = ["a"; "b"; "c"; "d"].
Proof.
  apply (bfs_ordering AsciiStr.lower AsciiStr.strip bfs_net 20 "T1" "a" "b" "c" "d").
  - apply (bool_decide_unpack (NoDup ["a"; "b"; "c"; "d"])). by vm_compute.
  - lia.
  - apply bfs_net_a.
  - apply bfs_net_b.
  - intros n used. by apply bfs_net_other.
  - intros n used. by apply bfs_net_other.
Defined.

Lemma example_round_run :
  iteration AsciiStr.lower AsciiStr.strip example_net 20 "T1" example_start
  = Some (example_after_run AsciiStr.lower AsciiStr.strip).
Proof. by vm_compute. Qed.

Lemma example_round_zebra :
  iteration AsciiStr.lower AsciiStr.strip example_net 20 "T1"
    (example_after_run AsciiStr.lower AsciiStr.strip)
  = Some (example_after_zebra AsciiStr.lower AsciiStr.strip).
Proof. by vm_compute. Qed.

Lemma record_omission_and_joining_witness :
  let s := globals example_start in
  let s' := globals (example_after_run AsciiStr.lower AsciiStr.strip) in
  let new_related :=
    new_related_of AsciiStr.lower AsciiStr.strip example_net "run" s in
  let definitions :=
    (info_at AsciiStr.lower AsciiStr.strip example_net (requests s)
       ({["run"]} ∪ used_words s) "run").2 in
  let syns := (thesaurus_at AsciiStr.lower example_net (S (requests s)) "run").1 in
  let ants := (thesaurus_at AsciiStr.lower example_net (S (requests s)) "run").2 in
  (new_related = [] → quiz_items s' = quiz_items s)
  ∧ (new_related ≠ [] →
     ∃ qi, quiz_record "T1" "run" new_related = Some qi
           ∧ quiz_items s' = quiz_items s ++ [qi])
  ∧ (syns = [] ∧ ants = [] → thesaurus_items s' = thesaurus_items s)
  ∧ (syns ≠ [] ∨ ants ≠ [] →
     thesaurus_items s'
     = thesaurus_items s
         ++ [{| th_Word := "run"; th_Topic := "T1";
                th_Synonyms := PyStr.join ", " syns;
                th_Antonyms := PyStr.join ", " ants |}])
  ∧ (definitions = [] → definitions_items s' = definitions_items s)
  ∧ (definitions ≠ [] →
     definitions_items s'
     = definitions_items s
         ++ [{| df_Word := "run"; df_Topic := "T1";
                df_Definition := PyStr.join " | " definitions |}])
  ∧ PyStr.join ", " ["big"; "large"; "huge"] = "big, large, huge"
  ∧ PyStr.join " | " ["first"; "second"] = "first | second".
Proof.
  apply (record_omission_and_joining AsciiStr.lower AsciiStr.strip example_net 20
           "T1" example_start (example_after_run AsciiStr.lower AsciiStr.strip)
           "run" ["zebra"]).
  - apply (bool_decide_unpack _). by vm_compute.
  - by vm_compute.
  - apply not_elem_of_empty.
  - exact example_round_run.
Defined.

(** The round of "zebra" in the example world: both requests fail, the
    word is seen and counted, and the collections are those left by "run". *)
Example soft_fail_zebra :
  let after_run := example_after_run AsciiStr.lower AsciiStr.strip in
  let after_zebra := example_after_zebra AsciiStr.lower AsciiStr.strip in
  iteration AsciiStr.lower AsciiStr.strip example_net 20 "T1" after_run
  = Some after_zebra
  ∧ "zebra" ∈ used_words (globals after_zebra)
  ∧ topic_used_words after_zebra = topic_used_words after_run + 1
  ∧ quiz_items (globals after_zebra) = quiz_items (globals after_run)
  ∧ thesaurus_items (globals after_zebra) = thesaurus_items (globals after_run)
  ∧ definitions_items (globals after_zebra)
    = definitions_items (globals after_run).
Proof.
  cbv zeta.
  split; [exact example_round_zebra|].
  split; [apply (bool_decide_unpack _); by vm_compute|].
  split; [by vm_compute|]. split; [by vm_compute|].
  split; by vm_compute.
Qed.

(** C7.  Self-loop suppression.  Whatever [str.lower] and [str.strip]
    compute: no entry of the related list returned by the primary lookup
    equals the lower-cased queried word.  Every entry is the stripped and
    lower-cased title of an entry of the page, so a title that equals the
    queried word once both are lower-cased contributes nothing; and when
    lower-casing a lower-cased string changes nothing, no entry equals the
    queried word after both are lower-cased.  The page of "run" in the
    example world lists "Run", and the lookup returns no "run"; there
    lower-casing is [AsciiStr.lower], and lower-casing twice is lower-casing
    once.  Independently, the filter of
    the traversal, which runs after the candidate has entered the seen set,
    removes the candidate from any related list, so the candidate is never
    among its own new related words. *)
Theorem self_loop_suppression (lower strip : string → string) (net : network) :
  (∀ word s e,
     e ∈ (scrape_cambridge_info lower strip net word s).1.1 →
     e ≠ lower word
     ∧ (∃ page lis t,
          net (requests s) (info_url word) = Response 200 page
          ∧ daccord_lb page = Some lis
          ∧ t ∈ titles_of lis
          ∧ e = lower (strip t)
          ∧ lower (strip t) ≠ lower word)
     ∧ ((∀ x, lower (lower x) = lower x) → lower e ≠ lower word))
  ∧ (∀ word s t,
       lower (strip t) = lower word →
       lower (strip t) ∉ (scrape_cambridge_info lower strip net word s).1.1)
  ∧ ((scrape_cambridge_info AsciiStr.lower AsciiStr.strip example_net "run"
        empty_state).1.1
     = ["sprint"; "jog"; "sprint"]
     ∧ ∀ x, AsciiStr.lower (AsciiStr.lower x) = AsciiStr.lower x)
  ∧ (∀ candidate (used : gset string) (related_words : list string),
       candidate ∉ filter (λ w, w ∉ {[candidate]} ∪ used) related_words)
  ∧ (∀ candidate s,
       new_related_of lower strip net candidate s
       = filter (λ w, w ∉ {[candidate]} ∪ used_words s)
           (info_at lower strip net (requests s)
              ({[candidate]} ∪ used_words s) candidate).1
       ∧ candidate ∉ new_related_of lower strip net candidate s)
  ∧ (∀ W topic c candidate rest,
       heap (globals c) !! queue c = Some (candidate :: rest) →
       candidate ∉ used_words (globals c) →
       topic_used_words c * 5 < W →
       ∃ c', iteration lower strip net W topic c = Some c'
             ∧ heap (globals c') !! queue c'
               = Some (rest ++ new_related_of lower strip net candidate (globals c))).
Proof.
  assert (∀ candidate (used : gset string) (related_words : list string),
            candidate ∉ filter (λ w, w ∉ {[candidate]} ∪ used) related_words)
    as Hfilter.
  { intros candidate used related_words [Hin _]%list_elem_of_filter.
    apply Hin, elem_of_union_l. by apply elem_of_singleton. }
  split.
  { intros word s e
      (_ & _ & Hne & page & lis & t & Hnet & Hlis & Ht & ->)%scrape_cambridge_info_related.
    split; [done|]. split.
    - by exists page, lis, t.
    - intros Hidemp. by rewrite Hidemp. }
  split.
  { intros word s t Heq (_ & _ & Hne & _)%scrape_cambridge_info_related.
    by apply Hne. }
  split; [split; [by vm_compute | exact lower_idemp]|].
  split; [exact Hfilter|]. split.
  { intros candidate s. split; [reflexivity|]. apply Hfilter. }
  intros W topic c candidate rest Hl Hnin Hlt.
  destruct (iteration_processed lower strip net W topic c candidate rest Hl Hnin Hlt)
    as (c' & Hit & Hq & _ & Hh & _).
  exists c'. by rewrite Hq.
Qed.

Lemma configuration_frame_witness :
  is_Some (heap (load_candidate_words [("T1", ["a"; "b"])] ∅ empty_state).2
             !! 1%positive)
  ∧ heap (expand AsciiStr.lower AsciiStr.strip bfs_net 20
            [("T1", ["a"; "b"])] ["T1"]) !! 1%positive
    = heap (load_candidate_words [("T1", ["a"; "b"])] ∅ empty_state).2
        !! 1%positive.
Proof.
  apply (proj1 (configuration_frame AsciiStr.lower AsciiStr.strip bfs_net 20
                  [("T1", ["a"; "b"])] ["T1"]) "T1").
  by vm_compute.
Defined.

(** The loop of the example world run to its end; eight rounds are enough. *)
Lemma example_run :
  loop_fuel AsciiStr.lower AsciiStr.strip example_net 20 "T1" 8 example_start
  = Some (topic_loop AsciiStr.lower AsciiStr.strip example_net 20 "T1"
            example_start).
Proof.
  destruct (loop_fuel AsciiStr.lower AsciiStr.strip example_net 20 "T1" 8
              example_start) as [r|] eqn:Hr.
  - by rewrite (loop_fuel_sound _ _ _ _ _ _ _ _ Hr).
  - by vm_compute in Hr.
Qed.

Lemma example_run_words :
  processed_words
    (globals (topic_loop AsciiStr.lower AsciiStr.strip example_net 20 "T1"
                example_start))
  = ["run"; "zebra"; "sprint"; "jog"].
Proof.
  assert (processed_words <$> (globals <$>
            loop_fuel AsciiStr.lower AsciiStr.strip example_net 20 "T1" 8
              example_start)
          = Some ["run"; "zebra"; "sprint"; "jog"]) as H by by vm_compute.
  rewrite example_run in H. by simplify_eq/=.
Qed.

(** C10.  No deduplication within a batch.  [process_candidate] stores in
    the new list object [new_related] the related list of the lookup
    filtered by the seen set, order and repetitions kept, and extends the
    queue with it.  In the example world the page of "run" yields "sprint"
    twice: the queue then holds "sprint" twice, the quiz record has it as
    option 1 (the correct answer) and again as option 3, and the loop run to
    its end processes it once.  The builder changes no list object that
    existed when it was called, its argument included. *)
Theorem no_dedup_within_batch (lower strip : string → string) (net : network)
    (topic : string) :
  (∀ candidate c,
     queue_allocated c →
     let s := globals c in
     let s' := globals (process_candidate lower strip net topic candidate c) in
     let seen := {[candidate]} ∪ used_words s in
     let related_words :=
       (info_at lower strip net (requests s) seen candidate).1 in
     heap s' !! fresh (dom (heap s))
     = Some (filter (λ w, w ∉ seen) related_words)
     ∧ heap s' !! queue c
       = Some (deref s (queue c) ++ filter (λ w, w ∉ seen) related_words))
  ∧ (let after_run := example_after_run AsciiStr.lower AsciiStr.strip in
     deref (globals after_run) (queue after_run)
     = ["zebra"; "sprint"; "jog"; "sprint"]
     ∧ (λ qi, [Option_1 qi; Option_2 qi; Option_3 qi; Option_4 qi; Option_5 qi])
         <$> quiz_items (globals after_run)
       = [["sprint"; "jog"; "sprint"; ""; ""]]
     ∧ processed_words
         (globals (topic_loop AsciiStr.lower AsciiStr.strip example_net 20 "T1"
                     example_start))
       = ["run"; "zebra"; "sprint"; "jog"])
  ∧ (∀ candidate_word related_synonyms s l,
       related_synonyms ∈ dom (heap s) → l ∈ dom (heap s) →
       heap (create_quiz_item topic candidate_word related_synonyms s).2 !! l
       = heap s !! l).
Proof.
  split; [|split].
  - intros candidate c Hq s s' seen related_words. subst s'.
    rewrite process_candidate_spec by done. simpl_state.
    change (new_related_of lower strip net candidate (globals c))
      with (filter (λ w, w ∉ seen) related_words).
    split; [by apply heap_after_new_related | by apply heap_after_queue].
  - cbv zeta. split; [by vm_compute|]. split; [by vm_compute|].
    exact example_run_words.
  - intros. by apply create_quiz_item_frame.
Qed.


Lemma nonpositive_target_witness :
  same_globals initial_state
    (main_loop AsciiStr.lower AsciiStr.strip bfs_net 0 candidate_words topics
       initial_state).
Proof. apply nonpositive_target. lia. Defined.

Lemma seeds_are_processed_first_witness :
  (processing_log initial_state
     ++ ((λ w, (w, "The Ecosystem"))
           <$> seeds_of candidate_words initial_state "The Ecosystem"))
    `prefix_of`
    processing_log
      (process_topic AsciiStr.lower AsciiStr.strip bfs_net WORD_COUNT
         candidate_words "The Ecosystem" initial_state).
Proof.
  apply (seeds_are_processed_first AsciiStr.lower AsciiStr.strip bfs_net
           WORD_COUNT candidate_words "The Ecosystem" initial_state).
  - rewrite ecosystem_seeds. apply (bool_decide_unpack _). by vm_compute.
  - rewrite ecosystem_seeds. apply Forall_forall. intros w _.
    change (used_words initial_state) with (∅ : gset string).
    apply not_elem_of_empty.
  - right. rewrite ecosystem_seeds. by vm_compute.
Defined.
